(** * Digital Library: the book and annotation models

    A shallow embedding of the two Mongoose models of the repository,
    the book model (schema, [isAvailable], [borrowBook], [returnBook])
    and [Backend/model/annotations.js] (schema, [isLikedBy],
    [toggleLike], [addReply], [softDelete] and the four query statics),
    and the patterns of their [match] validators, followed by the
    properties of the loan and annotation lifecycles and of the patterns.

    Conventions of the embedding:
    - an [ObjectId] is its 24 digit hexadecimal string, so [toString()]
      is the identity and [a.toString() === b.toString()] is equality of
      strings;
    - a [Date] is its number of milliseconds since the epoch; calendar
      arithmetic is done in UTC, where a day has 86400000 ms;
    - a schema [Number] holding a count is an integer of [Z];
    - a reference field ([user], [book]) of a document or of an embedded
      record holds an [ObjectId]: the methods set it on every record
      they write;
    - a method runs on a [World]: the in-memory document [this], the
      collection of stored documents, and the wall clock. A method is a
      state transformer that ends by returning a value or by throwing,
      and the world it leaves behind is part of its result in both
      cases. *)

From stdpp Require Import gmap strings list sorting.
From Stdlib Require Import ZArith.

Local Open Scope Z_scope.

(** ** Identifiers, dates and the clock *)

Abbreviation ObjectId := string (only parsing).
Abbreviation Date := Z (only parsing).

Definition msPerDay : Z := 86400000.

(** [d.setDate(d.getDate() + n)]: the date [n] calendar days after [d]. *)
Definition addDays (d : Date) (n : Z) : Date := d + n * msPerDay.

(** The wall clock: [readings k] is what the [k]-th read of the clock
    returns, [reads] counts the reads made so far. *)
Record Clock := MkClock { readings : nat → Date; reads : nat }.

Definition clock_time (c : Clock) : Date := readings c (reads c).
Definition clock_tick (c : Clock) : Clock := MkClock (readings c) (S (reads c)).

(** A clock that never runs backwards. *)
Definition monotone (c : Clock) : Prop :=
  ∀ i j : nat, (i ≤ j)%nat → readings c i ≤ readings c j.

(** ** Worlds and the method monad *)

Record World (D : Type) := MkWorld {
  this : D;
  db : gmap string D;
  clock : Clock
}.
Arguments MkWorld {D} _ _ _.
Arguments this {D} _.
Arguments db {D} _.
Arguments clock {D} _.

(** [new Error(message)] *)
Inductive Error := MkError (message : string).

Inductive outcome (A : Type) :=
  | Return (a : A)
  | Throw (e : Error).
Arguments Return {A} _.
Arguments Throw {A} _.

Definition M (S A : Type) : Type := S → S * outcome A.

Definition ret {S A} (a : A) : M S A := λ s, (s, Return a).

Definition bind {S A B} (m : M S A) (k : A → M S B) : M S B :=
  λ s, match m s with
       | (s', Return a) => k a s'
       | (s', Throw e) => (s', Throw e)
       end.

Definition throw {S A} (e : Error) : M S A := λ s, (s, Throw e).

Notation "'let!' x ':=' m 'in' k" := (bind m (λ x, k))
  (at level 10, x name, m at level 100, k at level 200).
Notation "m ';;' k" := (bind m (λ _, k))
  (at level 100, k at level 200, right associativity).

Section World_ops.
Context {D : Type}.

Definition getThis : M (World D) D := λ w, (w, Return (this w)).

Definition modifyThis (f : D → D) : M (World D) unit :=
  λ w, (MkWorld (f (this w)) (db w) (clock w), Return tt).

Definition getDb : M (World D) (gmap string D) := λ w, (w, Return (db w)).

Definition putDb (m : gmap string D) : M (World D) unit :=
  λ w, (MkWorld (this w) m (clock w), Return tt).

(** [new Date()] and [Date.now()]: one read of the clock. *)
Definition now : M (World D) Date :=
  λ w, (MkWorld (this w) (db w) (clock_tick (clock w)),
        Return (clock_time (clock w))).

Definition when (c : bool) (m : M (World D) unit) : M (World D) unit :=
  if c then m else ret tt.
End World_ops.

(** Did the method return, and with what. *)
Definition returned {S A} (r : S * outcome A) : option A :=
  match r.2 with Return a => Some a | Throw _ => None end.

Definition thrown {S A} (r : S * outcome A) : option Error :=
  match r.2 with Return _ => None | Throw e => Some e end.

(** * The book model *)

Module BookModel.

(** [availability]: enum of lines 63-67. *)
Inductive Availability := available | borrowed | reserved | maintenance.

(** [borrowHistory.status]: enum of lines 116-120. *)
Inductive Status := st_borrowed | st_returned | st_overdue.

#[global] Instance Availability_eq_dec : EqDecision Availability.
Proof. solve_decision. Defined.
#[global] Instance Status_eq_dec : EqDecision Status.
Proof. solve_decision. Defined.

(** An element of [borrowHistory]. *)
Record BorrowRecord := MkBorrowRecord {
  user : ObjectId;
  borrowDate : Date;
  returnDate : option Date;
  dueDate : option Date;
  status : Status
}.

#[global] Instance BorrowRecord_eq_dec : EqDecision BorrowRecord.
Proof. solve_decision. Defined.

(** A book document. The descriptive fields that no method reads or
    writes (isbn, description, genre, language, publisher, pageCount,
    the file references, rating, tags, reviews) are left out. *)
Record Book := MkBook {
  _id : ObjectId;
  title : string;
  author : string;
  availability : Availability;
  totalCopies : Z;
  availableCopies : Z;
  addedBy : ObjectId;
  borrowHistory : list BorrowRecord;
  createdAt : option Date;
  updatedAt : option Date
}.

#[global] Instance Book_eq_dec : EqDecision Book.
Proof. solve_decision. Defined.

(** Field assignments. *)
Definition set_availability (v : Availability) (b : Book) : Book :=
  MkBook (_id b) (title b) (author b) v (totalCopies b) (availableCopies b)
         (addedBy b) (borrowHistory b) (createdAt b) (updatedAt b).
Definition set_availableCopies (v : Z) (b : Book) : Book :=
  MkBook (_id b) (title b) (author b) (availability b) (totalCopies b) v
         (addedBy b) (borrowHistory b) (createdAt b) (updatedAt b).
Definition set_borrowHistory (v : list BorrowRecord) (b : Book) : Book :=
  MkBook (_id b) (title b) (author b) (availability b) (totalCopies b)
         (availableCopies b) (addedBy b) v (createdAt b) (updatedAt b).
Definition set_createdAt (v : option Date) (b : Book) : Book :=
  MkBook (_id b) (title b) (author b) (availability b) (totalCopies b)
         (availableCopies b) (addedBy b) (borrowHistory b) v (updatedAt b).
Definition set_updatedAt (v : option Date) (b : Book) : Book :=
  MkBook (_id b) (title b) (author b) (availability b) (totalCopies b)
         (availableCopies b) (addedBy b) (borrowHistory b) (createdAt b) v.

Definition set_returnDate (v : option Date) (r : BorrowRecord) : BorrowRecord :=
  MkBorrowRecord (user r) (borrowDate r) v (dueDate r) (status r).
Definition set_status (v : Status) (r : BorrowRecord) : BorrowRecord :=
  MkBorrowRecord (user r) (borrowDate r) (returnDate r) (dueDate r) v.

(** The [min: [0, ...]] validators of [totalCopies] and
    [availableCopies] (lines 68-77): what a stored book satisfies. *)
Definition schema_valid (b : Book) : Prop :=
  0 ≤ totalCopies b ∧ 0 ≤ availableCopies b.

(** The virtual [fullTitle]. *)
Definition fullTitle (b : Book) : string :=
  (title b ++ " by " ++ author b)%string.

(** [save()]: the [timestamps: true] option stamps the document, then
    it is written to the collection under its [_id]. The document is
    new when nothing is stored under its [_id], and modified when it
    differs from what is stored. The promise resolves to the
    document. *)
Definition save : M (World Book) Book :=
  let! b := getThis in
  let! stored := getDb in
  let isNew := bool_decide (stored !! _id b = None) in
  let isModified := bool_decide (stored !! _id b ≠ Some b) in
  when (isNew || isModified)
    (let! t := now in
     when (isNew && bool_decide (createdAt b = None))
          (modifyThis (set_createdAt (Some t))) ;;
     modifyThis (set_updatedAt (Some t))) ;;
  let! b := getThis in
  putDb (<[_id b := b]> stored) ;;
  ret b.

(** [isAvailable] (lines 158-160). *)
Definition isAvailable (b : Book) : bool :=
  bool_decide (availability b = available) && (0 <? availableCopies b).

(** [this.borrowHistory.push({...})]: the subdocument is built when it
    is pushed, and a field left out takes its schema default:
    [borrowDate] is [Date.now()], [status] is ['borrowed']. *)
Definition pushBorrowRecord (u : ObjectId) (due : option Date)
    (st : option Status) : M (World Book) unit :=
  let! created := now in
  modifyThis (λ b, set_borrowHistory
    (borrowHistory b ++
       [MkBorrowRecord u created None due (default st_borrowed st)]) b).

Definition notAvailableError : Error :=
  MkError "Book is not available for borrowing".
Definition noBorrowRecordError : Error :=
  MkError "No active borrow record found for this user".

(** [borrowBook] (lines 163-183). *)
Definition borrowBook (userId : ObjectId) : M (World Book) Book :=
  let! b := getThis in
  if negb (isAvailable b) then throw notAvailableError else
  modifyThis (λ b, set_availableCopies (availableCopies b - 1) b) ;;
  let! b := getThis in
  when (availableCopies b =? 0) (modifyThis (set_availability borrowed)) ;;
  let! d := now in
  let due := addDays d 14 in
  pushBorrowRecord userId (Some due) (Some st_borrowed) ;;
  save.

(** The predicate of the [find] in [returnBook]. *)
Definition activeFor (userId : ObjectId) (r : BorrowRecord) : Prop :=
  user r = userId ∧ status r = st_borrowed.

#[global] Instance activeFor_dec userId r : Decision (activeFor userId r).
Proof. unfold activeFor. apply _. Defined.

(** Assignment to a field of the record that [find] returned: the
    record is the element of [borrowHistory] itself, found at index
    [i], so the assignment changes the array in place. *)
Definition modifyRecord (i : nat) (f : BorrowRecord → BorrowRecord)
    : M (World Book) unit :=
  modifyThis (λ b, set_borrowHistory (alter f i (borrowHistory b)) b).

(** [returnBook] (lines 186-204). *)
Definition returnBook (userId : ObjectId) : M (World Book) Book :=
  let! b := getThis in
  match list_find (activeFor userId) (borrowHistory b) with
  | None => throw noBorrowRecordError
  | Some (i, _) =>
      let! d := now in
      modifyRecord i (set_returnDate (Some d)) ;;
      modifyRecord i (set_status st_returned) ;;
      modifyThis (λ b, set_availableCopies (availableCopies b + 1) b) ;;
      let! b := getThis in
      when (0 <? availableCopies b) (modifyThis (set_availability available)) ;;
      save
  end.

(** [findAvailable] (lines 207-209). *)
Definition findAvailable (coll : gmap string Book) : list Book :=
  filter (λ b, availability b = available ∧ 0 < availableCopies b)
         (map_to_list coll).*2.

(** The number of open loans in a ledger. *)
Definition openLoans (h : list BorrowRecord) : Z :=
  Z.of_nat (length (filter (λ r, status r = st_borrowed) h)).

End BookModel.

(** * The annotation model *)

Module AnnotationModel.

(** [type]: enum of lines 14-18. *)
Inductive AnnotationType := highlight | note | bookmark | comment.

#[global] Instance AnnotationType_eq_dec : EqDecision AnnotationType.
Proof. solve_decision. Defined.

Record Content := MkContent {
  selectedText : option string;
  userNote : option string
}.

Record Coordinates := MkCoordinates {
  x : option Z;
  y : option Z;
  width : option Z;
  height : option Z
}.

Record Position := MkPosition {
  page : Z;
  startOffset : option Z;
  endOffset : option Z;
  coordinates : Coordinates
}.

(** An element of [replies]. *)
Record Reply := MkReply {
  reply_user : ObjectId;
  reply_content : string;
  reply_createdAt : Date
}.

(** An element of [likes]. *)
Record Like := MkLike {
  like_user : ObjectId;
  likedAt : Date
}.

Record Annotation := MkAnnotation {
  _id : ObjectId;
  user : ObjectId;
  book : ObjectId;
  type : AnnotationType;
  content : Content;
  position : Position;
  color : string;
  isPrivate : bool;
  tags : list string;
  replies : list Reply;
  likes : list Like;
  isDeleted : bool;
  lastModified : Date;
  createdAt : option Date;
  updatedAt : option Date
}.

#[global] Instance Content_eq_dec : EqDecision Content.
Proof. solve_decision. Defined.
#[global] Instance Coordinates_eq_dec : EqDecision Coordinates.
Proof. solve_decision. Defined.
#[global] Instance Position_eq_dec : EqDecision Position.
Proof. solve_decision. Defined.
#[global] Instance Reply_eq_dec : EqDecision Reply.
Proof. solve_decision. Defined.
#[global] Instance Like_eq_dec : EqDecision Like.
Proof. solve_decision. Defined.
#[global] Instance Annotation_eq_dec : EqDecision Annotation.
Proof. solve_decision. Defined.

(** Field assignments. *)
Definition set_isPrivate (v : bool) (a : Annotation) : Annotation :=
  MkAnnotation (_id a) (user a) (book a) (type a) (content a) (position a)
    (color a) v (tags a) (replies a) (likes a) (isDeleted a)
    (lastModified a) (createdAt a) (updatedAt a).
Definition set_replies (v : list Reply) (a : Annotation) : Annotation :=
  MkAnnotation (_id a) (user a) (book a) (type a) (content a) (position a)
    (color a) (isPrivate a) (tags a) v (likes a) (isDeleted a)
    (lastModified a) (createdAt a) (updatedAt a).
Definition set_likes (v : list Like) (a : Annotation) : Annotation :=
  MkAnnotation (_id a) (user a) (book a) (type a) (content a) (position a)
    (color a) (isPrivate a) (tags a) (replies a) v (isDeleted a)
    (lastModified a) (createdAt a) (updatedAt a).
Definition set_isDeleted (v : bool) (a : Annotation) : Annotation :=
  MkAnnotation (_id a) (user a) (book a) (type a) (content a) (position a)
    (color a) (isPrivate a) (tags a) (replies a) (likes a) v
    (lastModified a) (createdAt a) (updatedAt a).
Definition set_lastModified (v : Date) (a : Annotation) : Annotation :=
  MkAnnotation (_id a) (user a) (book a) (type a) (content a) (position a)
    (color a) (isPrivate a) (tags a) (replies a) (likes a) (isDeleted a)
    v (createdAt a) (updatedAt a).
Definition set_createdAt (v : option Date) (a : Annotation) : Annotation :=
  MkAnnotation (_id a) (user a) (book a) (type a) (content a) (position a)
    (color a) (isPrivate a) (tags a) (replies a) (likes a) (isDeleted a)
    (lastModified a) v (updatedAt a).
Definition set_updatedAt (v : option Date) (a : Annotation) : Annotation :=
  MkAnnotation (_id a) (user a) (book a) (type a) (content a) (position a)
    (color a) (isPrivate a) (tags a) (replies a) (likes a) (isDeleted a)
    (lastModified a) (createdAt a) v.

(** What the caller hands to [new Annotation({...})]: the required
    fields, and the fields with a schema default as options. *)
Record AnnotationInput := MkAnnotationInput {
  in_id : ObjectId;
  in_user : ObjectId;
  in_book : ObjectId;
  in_type : AnnotationType;
  in_content : Content;
  in_position : Position;
  in_color : option string;
  in_isPrivate : option bool;
  in_tags : list string;
  in_isDeleted : option bool
}.

(** [new Annotation(inp)]: the document with the schema defaults filled
    in ([color] '#ffff00', [isPrivate] true, [isDeleted] false,
    [lastModified] [Date.now()], empty [replies] and [likes]). It
    becomes [this]. *)
Definition newAnnotation (inp : AnnotationInput) : M (World Annotation) unit :=
  let! t := now in
  modifyThis (λ _,
    MkAnnotation (in_id inp) (in_user inp) (in_book inp) (in_type inp)
      (in_content inp) (in_position inp)
      (default "#ffff00"%string (in_color inp))
      (default true (in_isPrivate inp))
      (in_tags inp) [] []
      (default false (in_isDeleted inp))
      t None None).

(** [save()]: the [timestamps: true] option stamps the document, the
    [pre('save')] hook of lines 113-118 refreshes [lastModified] of a
    modified document that is not new, and the document is written to
    the collection under its [_id]. The document is new when nothing is
    stored under its [_id], and modified when it differs from what is
    stored. The promise resolves to the document. *)
Definition save : M (World Annotation) Annotation :=
  let! a := getThis in
  let! stored := getDb in
  let isNew := bool_decide (stored !! _id a = None) in
  let isModified := bool_decide (stored !! _id a ≠ Some a) in
  when (isNew || isModified)
    (let! t := now in
     when (isNew && bool_decide (createdAt a = None))
          (modifyThis (set_createdAt (Some t))) ;;
     modifyThis (set_updatedAt (Some t))) ;;
  when (isModified && negb isNew)
    (let! t := now in modifyThis (set_lastModified t)) ;;
  let! a := getThis in
  putDb (<[_id a := a]> stored) ;;
  ret a.

(** The virtuals [likeCount] and [replyCount]. *)
Definition likeCount (a : Annotation) : nat := length (likes a).
Definition replyCount (a : Annotation) : nat := length (replies a).

(** [isLikedBy] (lines 131-133). *)
Definition isLikedBy (userId : ObjectId) (a : Annotation) : bool :=
  existsb (λ l, String.eqb (like_user l) userId) (likes a).

Inductive Action := liked | unliked.

Record ToggleResult := MkToggleResult {
  action : Action;
  result_likeCount : nat
}.

(** [this.likes.push({ user: userId })]: [likedAt] takes its default
    [Date.now()] when the subdocument is built. *)
Definition pushLike (u : ObjectId) : M (World Annotation) unit :=
  let! created := now in
  modifyThis (λ a, set_likes (likes a ++ [MkLike u created]) a).

(** [toggleLike] (lines 136-150). It does not save. *)
Definition toggleLike (userId : ObjectId) : M (World Annotation) ToggleResult :=
  let! a := getThis in
  match list_find (λ l, like_user l = userId) (likes a) with
  | Some (existingLikeIndex, _) =>
      modifyThis (λ a, set_likes (delete existingLikeIndex (likes a)) a) ;;
      let! a := getThis in
      ret (MkToggleResult unliked (likeCount a))
  | None =>
      pushLike userId ;;
      let! a := getThis in
      ret (MkToggleResult liked (likeCount a))
  end.

(** [addReply] (lines 153-159); [createdAt] of the reply takes its
    default [Date.now()]. *)
Definition addReply (userId : ObjectId) (text : string)
    : M (World Annotation) Annotation :=
  (let! created := now in
   modifyThis (λ a, set_replies (replies a ++ [MkReply userId text created]) a)) ;;
  save.

(** [softDelete] (lines 162-165). *)
Definition softDelete : M (World Annotation) Annotation :=
  modifyThis (set_isDeleted true) ;;
  save.

(** The assignment [annotation.isPrivate = v] followed by [save()]. *)
Definition setPrivacy (v : bool) : M (World Annotation) Annotation :=
  modifyThis (set_isPrivate v) ;;
  save.

(** ** Queries on the collection *)

(** [Model.find(filter)]: the stored documents that satisfy the filter. *)
Definition find (P : Annotation → Prop) `{∀ a, Decision (P a)}
    (coll : gmap string Annotation) : list Annotation :=
  filter P (map_to_list coll).*2.

(** Order of dates, an absent date before any other. *)
Definition date_le (d1 d2 : option Date) : Prop :=
  match d1, d2 with
  | None, _ => True
  | Some _, None => False
  | Some t1, Some t2 => t1 ≤ t2
  end.

#[global] Instance date_le_dec d1 d2 : Decision (date_le d1 d2).
Proof. destruct d1, d2; simpl; apply _. Defined.

(** [.sort({ 'position.page': 1, createdAt: 1 })] *)
Definition byPageThenCreated (a1 a2 : Annotation) : Prop :=
  page (position a1) < page (position a2) ∨
  (page (position a1) = page (position a2) ∧
   date_le (createdAt a1) (createdAt a2)).

#[global] Instance byPageThenCreated_dec a1 a2 :
  Decision (byPageThenCreated a1 a2).
Proof. unfold byPageThenCreated. apply _. Defined.

(** [.sort({ createdAt: -1 })] *)
Definition byCreatedDesc (a1 a2 : Annotation) : Prop :=
  date_le (createdAt a2) (createdAt a1).

#[global] Instance byCreatedDesc_dec a1 a2 : Decision (byCreatedDesc a1 a2).
Proof. unfold byCreatedDesc. apply _. Defined.

(** [findUserAnnotations] (lines 168-174). *)
Definition findUserAnnotations (userId bookId : ObjectId)
    (coll : gmap string Annotation) : list Annotation :=
  merge_sort byPageThenCreated
    (find (λ a, user a = userId ∧ book a = bookId ∧ isDeleted a = false) coll).

(** [findByType] (lines 187-194). *)
Definition findByType (userId bookId : ObjectId) (ty : AnnotationType)
    (coll : gmap string Annotation) : list Annotation :=
  merge_sort byPageThenCreated
    (find (λ a, user a = userId ∧ book a = bookId ∧ type a = ty ∧
                isDeleted a = false) coll).

(** A document with one reference field replaced by the projection of
    the document it refers to, or by nothing when that one is gone. *)
Record Populated (V : Type) := MkPopulated {
  doc : Annotation;
  populated : option V
}.
Arguments MkPopulated {V} _ _.
Arguments doc {V} _.
Arguments populated {V} _.

Section Queries.
(** The user and book collections seen through the projections that
    [populate] asks for, and the regular expression engine:
    [regexTest q s] is [new RegExp(q, 'i').test(s)]. *)
Context {UserView BookView : Type}.
Variable userView : ObjectId → option UserView.
Variable bookView : ObjectId → option BookView.
Variable regexTest : string → string → bool.

(** [findPublicAnnotations] (lines 177-184). *)
Definition findPublicAnnotations (bookId : ObjectId)
    (coll : gmap string Annotation) : list (Populated UserView) :=
  (λ a, MkPopulated a (userView (user a))) <$>
  merge_sort byPageThenCreated
    (find (λ a, book a = bookId ∧ isPrivate a = false ∧ isDeleted a = false)
          coll).

(** The [$or] of [searchAnnotations]. *)
Definition matchesQuery (searchQuery : string) (a : Annotation) : bool :=
  from_option (regexTest searchQuery) false (selectedText (content a))
  || from_option (regexTest searchQuery) false (userNote (content a))
  || existsb (regexTest searchQuery) (tags a).

(** [searchAnnotations] (lines 197-208). *)
Definition searchAnnotations (userId : ObjectId) (searchQuery : string)
    (coll : gmap string Annotation) : list (Populated BookView) :=
  (λ a, MkPopulated a (bookView (book a))) <$>
  merge_sort byCreatedDesc
    (find (λ a, user a = userId ∧ isDeleted a = false ∧
                matchesQuery searchQuery a = true) coll).

End Queries.

(** Every stored document sits under its own [_id]. *)
Definition keyed (coll : gmap string Annotation) : Prop :=
  ∀ k a, coll !! k = Some a → _id a = k.

End AnnotationModel.

(** * Vocabulary of the statements about books *)

Module BookSpec.
Import BookModel.

(** [b'] is [b] up to the two timestamps that [save] maintains. *)
Definition stamped (b b' : Book) : Prop :=
  _id b' = _id b ∧ title b' = title b ∧ author b' = author b ∧
  availability b' = availability b ∧ totalCopies b' = totalCopies b ∧
  availableCopies b' = availableCopies b ∧ addedBy b' = addedBy b ∧
  borrowHistory b' = borrowHistory b.

(** The world in which [borrowBook] calls [save]. *)
Definition borrowed_world (userId : ObjectId) (w : World Book) : World Book :=
  let b := this w in
  let n := availableCopies b - 1 in
  let c := clock w in
  MkWorld
    (set_borrowHistory
       (borrowHistory b ++
          [MkBorrowRecord userId (readings c (S (reads c))) None
             (Some (addDays (readings c (reads c)) 14)) st_borrowed])
       ((if n =? 0 then set_availability borrowed else id)
          (set_availableCopies n b)))
    (db w) (clock_tick (clock_tick c)).

(** The world in which [returnBook] calls [save], the open record being
    at index [i]. *)
Definition returned_world (i : nat) (w : World Book) : World Book :=
  let b := this w in
  let n := availableCopies b + 1 in
  let c := clock w in
  MkWorld
    ((if 0 <? n then set_availability available else id)
       (set_availableCopies n
          (set_borrowHistory
             (alter (λ r, set_status st_returned
                            (set_returnDate (Some (readings c (reads c))) r))
                    i (borrowHistory b)) b)))
    (db w) (clock_tick c).

(** The inventory invariant of the data model. *)
Definition within_stock (b : Book) : Prop :=
  0 ≤ availableCopies b ≤ totalCopies b.

(** Every open loan of the ledger is a copy missing from the shelf. *)
Definition ledger_backed (b : Book) : Prop :=
  0 ≤ availableCopies b ∧
  availableCopies b + openLoans (borrowHistory b) ≤ totalCopies b.

(** [availability] is ['borrowed'] exactly when no copy is left. *)
Definition borrowed_iff_none_left (b : Book) : Prop :=
  availability b = borrowed ↔ availableCopies b = 0.

(** The method returned (its promise is that of [save]). *)
Definition succeeded {A} (r : World Book * outcome A) : Prop :=
  is_Some (returned r).

(** A clock that advances by one millisecond from one read to the
    next, starting at 0. *)
Definition ticking : Clock := MkClock (λ k, Z.of_nat k) 0.

(** One copy in stock, none lent according to the counters, yet an open
    loan of [u1] in the ledger. *)
Definition overfull : World Book :=
  MkWorld
    (MkBook "b1" "Dune" "Herbert" available 1 1 "admin"
       [MkBorrowRecord "u1" 0 None (Some (addDays 0 14)) st_borrowed]
       (Some 0) (Some 0))
    ∅ ticking.

(** A fresh book with two copies. *)
Definition two_copies : World Book :=
  MkWorld (MkBook "b1" "Dune" "Herbert" available 2 2 "admin" [] None None)
          ∅ ticking.

(** The same book after [u1] and then [u2] borrowed it. *)
Definition two_lent : World Book :=
  (borrowBook "u2" (borrowBook "u1" two_copies).1).1.

(** Every stored book sits under its own [_id]. *)
Definition keyedBooks (coll : gmap string Book) : Prop :=
  ∀ k b, coll !! k = Some b → _id b = k.

(** One [borrowBook] after the other, for each user of the list; the
    first failure ends the run. *)
Fixpoint borrowEach (users : list ObjectId) : M (World Book) unit :=
  match users with
  | [] => ret tt
  | u :: rest => borrowBook u ;; borrowEach rest
  end.

(** The number of open loans of one user in a ledger. *)
Definition openLoansOf (userId : ObjectId) (h : list BorrowRecord) : nat :=
  length (filter (activeFor userId) h).

End BookSpec.

(** * Vocabulary of the statements about annotations *)

Module AnnotationSpec.
Import AnnotationModel.

(** [a'] is [a] up to the three dates that [save] maintains. *)
Definition stamped (a a' : Annotation) : Prop :=
  _id a' = _id a ∧ user a' = user a ∧ book a' = book a ∧ type a' = type a ∧
  content a' = content a ∧ position a' = position a ∧ color a' = color a ∧
  isPrivate a' = isPrivate a ∧ tags a' = tags a ∧ replies a' = replies a ∧
  likes a' = likes a ∧ isDeleted a' = isDeleted a.

(** How many entries of [likes] belong to a user. *)
Definition likedTimes (userId : ObjectId) (a : Annotation) : nat :=
  length (filter (λ l, like_user l = userId) (likes a)).

(** Two calls of [toggleLike] in a row. *)
Definition toggleTwice (userId : ObjectId)
    : M (World Annotation) ToggleResult :=
  toggleLike userId ;; toggleLike userId.

Section Hidden.
Context {UserView BookView : Type}.
Variable userView : ObjectId → option UserView.
Variable bookView : ObjectId → option BookView.
Variable regexTest : string → string → bool.

(** No result of the four queries is the document [id]. *)
Definition hidden (id : ObjectId) (coll : gmap string Annotation) : Prop :=
  (∀ userId bookId r,
     r ∈ findUserAnnotations userId bookId coll → _id r ≠ id) ∧
  (∀ bookId r,
     r ∈ findPublicAnnotations userView bookId coll → _id (doc r) ≠ id) ∧
  (∀ userId bookId ty r,
     r ∈ findByType userId bookId ty coll → _id r ≠ id) ∧
  (∀ userId searchQuery r,
     r ∈ searchAnnotations bookView regexTest userId searchQuery coll →
     _id (doc r) ≠ id).
End Hidden.

(** [new RegExp(q, 'i').test(s)] for a [q] without metacharacters and
    text without letters: [q] occurs in [s]. *)
Definition occursIn (q s : string) : bool :=
  if String.index 0 q s is Some _ then true else false.

Definition noUsers : ObjectId → option string := λ _, None.
Definition noBooks : ObjectId → option string := λ _, None.

Definition page3 : Position :=
  MkPosition 3 None None (MkCoordinates None None None None).

(** A highlight on page 3 of book [b1], made by [u1], not yet stored. *)
Definition draft : AnnotationInput :=
  MkAnnotationInput "a1" "u1" "b1" highlight
    (MkContent (Some "42") None) page3 None None ["7"] None.

Definition emptyWorld : World Annotation :=
  MkWorld
    (MkAnnotation "" "" "" note (MkContent None None) page3 "" true [] [] []
       false 0 None None)
    ∅ (MkClock (λ k, Z.of_nat k) 0).

(** The world after [draft] was created and saved. *)
Definition oneStored : World Annotation :=
  ((newAnnotation draft ;; save) emptyWorld).1.

(** [oneStored], made public and liked twice by [u2] (two entries). *)
Definition doubleLiked : World Annotation :=
  MkWorld
    (set_likes [MkLike "u2" 10; MkLike "u2" 20]
       (set_isPrivate false (this oneStored)))
    (db oneStored) (clock oneStored).

(** At most one entry of [likes] for each user. *)
Definition onePerUser (a : Annotation) : Prop :=
  NoDup (like_user <$> likes a).

(** The in-memory document is the stored one: it was loaded, or saved,
    and not changed since. *)
Definition inSync (w : World Annotation) : Prop :=
  db w !! _id (this w) = Some (this w).

(** The white space that the schema's [trim] removes, among the ASCII
    characters: space, tab, line feed, vertical tab, form feed and
    carriage return. *)
Definition isWhitespace (c : Ascii.ascii) : bool :=
  bool_decide (Ascii.nat_of_ascii c ∈ [32; 9; 10; 11; 12; 13]%nat).

(** A reply text that the schema of [replies.content] stores as it is
    given: ASCII only, so that its length is its number of characters,
    not empty ([required]), at most 1000 characters ([maxlength]), and
    with no white space for [trim] to remove at either end. *)
Definition storedAsGiven (text : string) : bool :=
  let cs := String.list_ascii_of_string text in
  forallb (λ c, Nat.ltb (Ascii.nat_of_ascii c) 128) cs &&
  Nat.leb 1 (length cs) && Nat.leb (length cs) 1000 &&
  negb (from_option isWhitespace true (head cs)) &&
  negb (from_option isWhitespace true (last cs)).

End AnnotationSpec.

(** * The patterns of the [match] validators *)

(** The two schemas validate [isbn] and [color] with a regular
    expression. A pattern is embedded as its syntax tree, and tested by
    a matcher that takes the derivative of the pattern by each
    character in turn. Both patterns are anchored at [^] and [$], so a
    test asks whether the whole string is in the language of the
    pattern; a lookahead [(?=p)] in front of the rest [q] of an anchored
    pattern is the intersection of [p] (followed by anything, when [p]
    does not end in [$]) with [q]. *)

Module Validators.
Import Stdlib.Strings.Ascii.

Inductive regex :=
  | Void
  | Eps
  | Chars (ranges : list (Ascii.ascii * Ascii.ascii))
  | AnyChar
  | Cat (r1 r2 : regex)
  | Alt (r1 r2 : regex)
  | And (r1 r2 : regex)
  | Star (r : regex).

(** [c] is in one of the ranges of a character class. *)
Definition inClass (c : Ascii.ascii) (ranges : list (Ascii.ascii * Ascii.ascii))
    : bool :=
  existsb (λ range, Nat.leb (Ascii.nat_of_ascii range.1) (Ascii.nat_of_ascii c)
                    && Nat.leb (Ascii.nat_of_ascii c) (Ascii.nat_of_ascii range.2))
          ranges.

(** A literal character, a literal string, [r?], [r+] and [r{n}]. *)
Definition Lit (c : Ascii.ascii) : regex := Chars [(c, c)].

Fixpoint Str (s : string) : regex :=
  match s with
  | EmptyString => Eps
  | String c rest => Cat (Lit c) (Str rest)
  end.

Definition Opt (r : regex) : regex := Alt r Eps.
Definition Plus (r : regex) : regex := Cat r (Star r).

Fixpoint Rep (n : nat) (r : regex) : regex :=
  match n with
  | O => Eps
  | S n' => Cat r (Rep n' r)
  end.

(** The language of a pattern. *)
Inductive Matches : regex → list Ascii.ascii → Prop :=
  | MEps : Matches Eps []
  | MChars c ranges : inClass c ranges = true → Matches (Chars ranges) [c]
  | MAnyChar c : Matches AnyChar [c]
  | MCat r1 r2 s1 s2 :
      Matches r1 s1 → Matches r2 s2 → Matches (Cat r1 r2) (s1 ++ s2)
  | MAltL r1 r2 s : Matches r1 s → Matches (Alt r1 r2) s
  | MAltR r1 r2 s : Matches r2 s → Matches (Alt r1 r2) s
  | MAnd r1 r2 s : Matches r1 s → Matches r2 s → Matches (And r1 r2) s
  | MStarNil r : Matches (Star r) []
  | MStarApp r s1 s2 :
      Matches r s1 → Matches (Star r) s2 → Matches (Star r) (s1 ++ s2).

(** Nothing matches [Void]. *)
Ltac no_void :=
  match goal with H : Matches Void _ |- _ => by inv H end.

(** The codes of the literal characters of a class, as numbers. *)
Ltac eval_codes :=
  repeat match goal with
  | |- context [nat_of_ascii (Ascii ?b0 ?b1 ?b2 ?b3 ?b4 ?b5 ?b6 ?b7)] =>
      let a := constr:(Ascii b0 b1 b2 b3 b4 b5 b6 b7) in
      let v := eval vm_compute in (nat_of_ascii a) in
      change (nat_of_ascii a) with v
  | H : context [nat_of_ascii (Ascii ?b0 ?b1 ?b2 ?b3 ?b4 ?b5 ?b6 ?b7)] |- _ =>
      let a := constr:(Ascii b0 b1 b2 b3 b4 b5 b6 b7) in
      let v := eval vm_compute in (nat_of_ascii a) in
      change (nat_of_ascii a) with v in H
  end.

(** Every range of one literal class is a range of another. *)
Ltac sub_ranges :=
  intros ?; rewrite !elem_of_cons, ?elem_of_nil; tauto.

(** Membership in a class of literal ranges, as inequalities between
    character codes. *)
Ltac class_arith :=
  unfold inClass in *; cbn [existsb fst snd] in *; eval_codes;
  rewrite ?orb_false_r, ?orb_true_iff, ?andb_true_iff, ?Nat.leb_le in *;
  lia.

(** Does the pattern match the empty string. *)
Fixpoint nullable (r : regex) : bool :=
  match r with
  | Void => false
  | Eps => true
  | Chars _ => false
  | AnyChar => false
  | Cat r1 r2 => nullable r1 && nullable r2
  | Alt r1 r2 => nullable r1 || nullable r2
  | And r1 r2 => nullable r1 && nullable r2
  | Star _ => true
  end.

(** Constructors that drop a branch that can no longer match. *)
Definition cat (r1 r2 : regex) : regex :=
  match r1, r2 with
  | Void, _ => Void
  | _, Void => Void
  | _, _ => Cat r1 r2
  end.

Definition alt (r1 r2 : regex) : regex :=
  match r1, r2 with
  | Void, _ => r2
  | _, Void => r1
  | _, _ => Alt r1 r2
  end.

Definition and (r1 r2 : regex) : regex :=
  match r1, r2 with
  | Void, _ => Void
  | _, Void => Void
  | _, _ => And r1 r2
  end.

(** What is left of the pattern after the character [c]. *)
Fixpoint deriv (c : Ascii.ascii) (r : regex) : regex :=
  match r with
  | Void => Void
  | Eps => Void
  | Chars ranges => if inClass c ranges then Eps else Void
  | AnyChar => Eps
  | Cat r1 r2 =>
      alt (cat (deriv c r1) r2) (if nullable r1 then deriv c r2 else Void)
  | Alt r1 r2 => alt (deriv c r1) (deriv c r2)
  | And r1 r2 => and (deriv c r1) (deriv c r2)
  | Star r1 => cat (deriv c r1) (Star r1)
  end.

Definition accepts (r : regex) (s : list Ascii.ascii) : bool :=
  nullable (foldl (λ r c, deriv c r) r s).

(** [pattern.test(s)] for a pattern anchored at both ends. *)
Definition test (pattern : regex) (s : string) : bool :=
  accepts pattern (String.list_ascii_of_string s).

(** The validator that [match: [pattern, message]] declares: a value
    that is absent or the empty string passes, any other one is
    tested. The value is the one the setters ([trim]) have left. *)
Definition matchValidator (pattern : regex) (v : option string) : bool :=
  match v with
  | None => true
  | Some EmptyString => true
  | Some s => test pattern s
  end.

Definition digit : regex := Chars [("0", "9")]%char.
Definition separator : regex := Chars [("-", "-"); (" ", " ")]%char.

(** [(?:ISBN(?:-1[03])?:? )?] *)
Definition isbnLabel : regex :=
  Opt (Cat (Str "ISBN")
        (Cat (Opt (Cat (Str "-1") (Chars [("0", "0"); ("3", "3")]%char)))
          (Cat (Opt (Lit ":")) (Lit " ")))).

(** The lookahead of the [isbn] pattern:
    [(?=[0-9X]{10}$|(?=(?:[0-9]+[- ]){3})[- 0-9X]{13}$|97[89][0-9]{10}$|(?=(?:[0-9]+[- ]){4})[- 0-9]{17}$)] *)
Definition isbnShape : regex :=
  Alt (Rep 10 (Chars [("0", "9"); ("X", "X")]%char))
   (Alt (And (Cat (Rep 3 (Cat (Plus digit) separator)) (Star AnyChar))
             (Rep 13 (Chars [("-", "-"); (" ", " "); ("0", "9");
                             ("X", "X")]%char)))
    (Alt (Cat (Str "97") (Cat (Chars [("8", "9")]%char) (Rep 10 digit)))
         (And (Cat (Rep 4 (Cat (Plus digit) separator)) (Star AnyChar))
              (Rep 17 (Chars [("-", "-"); (" ", " "); ("0", "9")]%char))))).

(** What follows the lookahead:
    [(?:97[89][- ]?)?[0-9]{1,5}[- ]?[0-9]+[- ]?[0-9]+[- ]?[0-9X]$] *)
Definition isbnGroups : regex :=
  Cat (Opt (Cat (Str "97") (Cat (Chars [("8", "9")]%char) (Opt separator))))
   (Cat (Cat digit (Rep 4 (Opt digit)))
    (Cat (Opt separator)
     (Cat (Plus digit)
      (Cat (Opt separator)
       (Cat (Plus digit)
        (Cat (Opt separator)
         (Chars [("0", "9"); ("X", "X")]%char))))))).

(** The pattern of [isbn] (line 21 of the book schema). *)
Definition isbnPattern : regex :=
  Cat isbnLabel (And isbnShape isbnGroups).

Definition hexDigit : regex :=
  Chars [("A", "F"); ("a", "f"); ("0", "9")]%char.

(** The pattern of [color] (line 55 of the annotation schema):
    [^#([A-Fa-f0-9]{6}|[A-Fa-f0-9]{3})$] *)
Definition colorPattern : regex :=
  Cat (Lit "#") (Alt (Rep 6 hexDigit) (Rep 3 hexDigit)).

(** The labels that [isbnLabel] admits. *)
Definition isbnLabels : list string :=
  [""; "ISBN "; "ISBN: "; "ISBN-10 "; "ISBN-10: "; "ISBN-13 ";
   "ISBN-13: "]%string.

Definition isDigit (c : Ascii.ascii) : bool := inClass c [("0", "9")]%char.
Definition isDigitOrX (c : Ascii.ascii) : bool :=
  inClass c [("0", "9"); ("X", "X")]%char.
Definition isHexDigit (c : Ascii.ascii) : bool :=
  inClass c [("A", "F"); ("a", "f"); ("0", "9")]%char.
Definition isIsbnChar (c : Ascii.ascii) : bool :=
  inClass c [("-", "-"); (" ", " "); ("0", "9"); ("X", "X")]%char.

End Validators.

(** * Lemmas on lists *)

Section list_find_facts.
Context {A : Type} (P : A → Prop) `{∀ x, Decision (P x)}.

Lemma list_find_split (l : list A) i x :
  list_find P l = Some (i, x) →
  ∃ l1 l2, l = l1 ++ x :: l2 ∧ length l1 = i ∧
           Forall (λ y, ¬ P y) l1 ∧ P x.
Proof.
  intros (Hi & HP & Hmin)%list_find_Some.
  exists (take i l), (drop (S i) l).
  pose proof (lookup_lt_Some _ _ _ Hi) as Hlt.
  split; [by rewrite take_drop_middle|].
  split; [rewrite length_take; lia|].
  split; [|done].
  apply Forall_lookup. intros j y Hj.
  pose proof (lookup_lt_Some _ _ _ Hj) as Hjlt. rewrite length_take in Hjlt.
  rewrite lookup_take_lt in Hj by lia. apply (Hmin j); [done|lia].
Qed.

Lemma list_find_first (l1 l2 : list A) x :
  Forall (λ y, ¬ P y) l1 → P x →
  list_find P (l1 ++ x :: l2) = Some (length l1, x).
Proof.
  intros Hl1 Hx. apply list_find_Some. split; [by rewrite list_lookup_middle|].
  split; [done|]. intros j y Hj Hlt.
  rewrite lookup_app_l in Hj by done.
  by eapply (Forall_lookup_1 _ _ _ _ Hl1).
Qed.
End list_find_facts.

(** * Properties of the loan lifecycle *)

Module BookProps.
Import BookModel BookSpec.

Lemma book_save_stamps (w : World Book) :
  ∃ b', (save w).2 = Return b' ∧ this (save w).1 = b' ∧
        db (save w).1 = <[_id b' := b']> (db w) ∧ stamped (this w) b'.
Proof.
  destruct w as [b m c]. unfold save, bind, getThis, getDb, when, now, putDb,
    modifyThis, ret; simpl.
  destruct (bool_decide (m !! _id b = None)),
           (bool_decide (m !! _id b ≠ Some b)),
           (bool_decide (createdAt b = None)); simpl;
    (eexists; split; [reflexivity|]; split; [reflexivity|];
     split; [reflexivity|]); repeat split.
Qed.

Lemma borrowBook_available userId (w : World Book) :
  isAvailable (this w) = true →
  borrowBook userId w = save (borrowed_world userId w).
Proof.
  intros Hav. destruct w as [b m c]. simpl in Hav.
  unfold borrowBook, bind at 1, getThis at 1. simpl. rewrite Hav. simpl.
  unfold borrowed_world, bind, getThis, modifyThis, when, now, pushBorrowRecord,
    ret; simpl.
  destruct (availableCopies b - 1 =? 0); reflexivity.
Qed.

Lemma borrowBook_unavailable userId (w : World Book) :
  isAvailable (this w) = false →
  borrowBook userId w = (w, Throw notAvailableError).
Proof.
  intros Hav. unfold borrowBook, bind, getThis. simpl. rewrite Hav. reflexivity.
Qed.

Lemma returnBook_found userId (w : World Book) i r :
  list_find (activeFor userId) (borrowHistory (this w)) = Some (i, r) →
  returnBook userId w = save (returned_world i w).
Proof.
  intros Hf. destruct w as [b m c]. simpl in Hf.
  unfold returnBook, bind at 1, getThis at 1. simpl. rewrite Hf.
  unfold returned_world, bind, getThis, modifyThis, modifyRecord, when, now,
    ret; simpl.
  rewrite list_alter_alter_eq.
  destruct (0 <? availableCopies b + 1); reflexivity.
Qed.

Lemma returnBook_not_found userId (w : World Book) :
  list_find (activeFor userId) (borrowHistory (this w)) = None →
  returnBook userId w = (w, Throw noBorrowRecordError).
Proof.
  intros Hf. unfold returnBook, bind, getThis. simpl. rewrite Hf. reflexivity.
Qed.

Lemma openLoans_app h1 h2 : openLoans (h1 ++ h2) = openLoans h1 + openLoans h2.
Proof. unfold openLoans. rewrite filter_app, length_app. lia. Qed.

Lemma openLoans_cons r h :
  openLoans (r :: h) =
  (if decide (status r = st_borrowed) then 1 else 0) + openLoans h.
Proof.
  unfold openLoans. rewrite filter_cons. case_decide; simpl; lia.
Qed.

Lemma openLoans_nonneg h : 0 ≤ openLoans h.
Proof. unfold openLoans. lia. Qed.

(** What [borrowBook] leaves in [this] when the book is available. *)
Lemma borrowBook_this userId (w : World Book) :
  isAvailable (this w) = true →
  ∃ b', (borrowBook userId w).2 = Return b' ∧
        this (borrowBook userId w).1 = b' ∧
        stamped (this (borrowed_world userId w)) b'.
Proof.
  intros Hav. rewrite (borrowBook_available _ _ Hav).
  destruct (book_save_stamps (borrowed_world userId w)) as (b' & ? & ? & _ & ?).
  eauto.
Qed.

(** What [returnBook] leaves in [this] when an open record is found. *)
Lemma returnBook_this userId (w : World Book) i r :
  list_find (activeFor userId) (borrowHistory (this w)) = Some (i, r) →
  ∃ b', (returnBook userId w).2 = Return b' ∧
        this (returnBook userId w).1 = b' ∧
        stamped (this (returned_world i w)) b'.
Proof.
  intros Hf. rewrite (returnBook_found _ _ _ _ Hf).
  destruct (book_save_stamps (returned_world i w)) as (b' & ? & ? & _ & ?).
  eauto.
Qed.

Lemma isAvailable_true b :
  isAvailable b = true ↔ availability b = available ∧ 0 < availableCopies b.
Proof.
  unfold isAvailable.
  rewrite andb_true_iff, bool_decide_eq_true, Z.ltb_lt. done.
Qed.

Lemma borrowed_world_fields userId (w : World Book) :
  let b := this w in
  let b1 := this (borrowed_world userId w) in
  availableCopies b1 = availableCopies b - 1 ∧
  totalCopies b1 = totalCopies b ∧
  availability b1 =
    (if availableCopies b - 1 =? 0 then borrowed else availability b) ∧
  borrowHistory b1 =
    borrowHistory b ++
      [MkBorrowRecord userId (readings (clock w) (S (reads (clock w)))) None
         (Some (addDays (clock_time (clock w)) 14)) st_borrowed].
Proof.
  destruct w as [b m c]; simpl.
  destruct (availableCopies b - 1 =? 0); simpl; done.
Qed.

Lemma returned_world_fields i (w : World Book) :
  let b := this w in
  let b1 := this (returned_world i w) in
  availableCopies b1 = availableCopies b + 1 ∧
  totalCopies b1 = totalCopies b ∧
  availability b1 =
    (if 0 <? availableCopies b + 1 then available else availability b) ∧
  borrowHistory b1 =
    alter (λ r, MkBorrowRecord (user r) (borrowDate r)
                  (Some (clock_time (clock w))) (dueDate r) st_returned)
          i (borrowHistory b).
Proof.
  destruct w as [b m c]; simpl.
  destruct (0 <? availableCopies b + 1); simpl; done.
Qed.

Lemma openLoans_close (f : BorrowRecord → BorrowRecord) l1 r l2 :
  status r = st_borrowed → status (f r) = st_returned →
  openLoans (alter f (length l1) (l1 ++ r :: l2)) =
  openLoans (l1 ++ r :: l2) - 1.
Proof.
  intros Hr Hfr. rewrite alter_app_r_alt by lia.
  rewrite Nat.sub_diag. simpl.
  rewrite !openLoans_app, !openLoans_cons.
  rewrite Hr, Hfr. repeat case_decide; try done. lia.
Qed.

(** ** The inventory invariant (C1) *)

(** C1, as the specification states it, fails: [returnBook] raises
    [availableCopies] without looking at [totalCopies]. On a book with
    one copy, that copy on the shelf, and an open loan of [u1] in its
    ledger, the invariant [0 ≤ availableCopies ≤ totalCopies] holds
    before [returnBook] and not after it. *)
Lemma returnBook_overfills :
  within_stock (this overfull) ∧
  succeeded (returnBook "u1" overfull) ∧
  availableCopies (this (returnBook "u1" overfull).1) = 2 ∧
  totalCopies (this (returnBook "u1" overfull).1) = 1 ∧
  ¬ within_stock (this (returnBook "u1" overfull).1).
Proof.
  split; [vm_compute; split; discriminate|].
  split; [vm_compute; by eexists|].
  split; [vm_compute; reflexivity|]. split; [vm_compute; reflexivity|].
  vm_compute. intros [_ Hle]. by apply Hle.
Qed.

(** C1 (amended): on a book with [0 ≤ availableCopies ≤ totalCopies],
    [borrowBook] keeps [0 ≤ availableCopies ≤ totalCopies];
    [returnBook] keeps [0 ≤ availableCopies], and keeps
    [availableCopies ≤ totalCopies] exactly when it fails or
    [availableCopies < totalCopies] held before the call. Both
    operations keep the stronger invariant that the open loans of the
    ledger are backed by missing copies
    ([availableCopies + open loans ≤ totalCopies]), under which the upper
    bound is never crossed. After either operation has succeeded,
    [availability] is ['borrowed'] iff [availableCopies] is 0. *)
Theorem borrow_return_inventory (userId : ObjectId) (w : World Book) :
  within_stock (this w) →
  let bw := borrowBook userId w in
  let rw := returnBook userId w in
  (within_stock (this bw.1) ∧
   (succeeded bw → borrowed_iff_none_left (this bw.1)) ∧
   (ledger_backed (this w) → ledger_backed (this bw.1))) ∧
  (0 ≤ availableCopies (this rw.1) ∧
   (availableCopies (this rw.1) ≤ totalCopies (this rw.1) ↔
      ¬ succeeded rw ∨ availableCopies (this w) < totalCopies (this w)) ∧
   (succeeded rw → borrowed_iff_none_left (this rw.1)) ∧
   (ledger_backed (this w) → ledger_backed (this rw.1))).
Proof.
  intros [Hlo Hhi] bw rw. split.
  - subst bw. destruct (isAvailable (this w)) eqn:Hav.
    + destruct (borrowBook_this userId w Hav) as (b' & Hret & Hthis & Hst).
      destruct (borrowed_world_fields userId w) as (Hn & Ht & Ha & Hh).
      destruct Hst as (_ & _ & _ & Ha' & Ht' & Hn' & _ & Hh').
      apply isAvailable_true in Hav as [Hav Hpos].
      rewrite Hthis.
      unfold within_stock, borrowed_iff_none_left, ledger_backed.
      rewrite Ha', Ht', Hn', Hh', Ha, Ht, Hn, Hh, Hav.
      split; [lia|]. split.
      * intros _. destruct (Z.eqb_spec (availableCopies (this w) - 1) 0);
          split; intros; try done; lia.
      * intros [_ Hb]. rewrite openLoans_app, openLoans_cons. simpl.
        unfold openLoans at 2. simpl. lia.
    + rewrite (borrowBook_unavailable _ _ Hav). simpl.
      split; [done|]. split; [|done].
      intros [? Hs]. discriminate Hs.
  - subst rw.
    destruct (list_find (activeFor userId) (borrowHistory (this w)))
      as [[i r]|] eqn:Hf.
    + destruct (returnBook_this userId w i r Hf) as (b' & Hret & Hthis & Hst).
      destruct (returned_world_fields i w) as (Hn & Ht & Ha & Hh).
      destruct Hst as (_ & _ & _ & Ha' & Ht' & Hn' & _ & Hh').
      assert (Hsucc : succeeded (returnBook userId w)).
      { unfold succeeded, returned. rewrite Hret. by eexists. }
      rewrite Hthis.
      unfold borrowed_iff_none_left, ledger_backed.
      rewrite Ha', Ht', Hn', Hh', Ha, Ht, Hn, Hh.
      split; [lia|]. split; [|split].
      * split; [intros; right; lia|]. intros [Hc|Hc]; [done|lia].
      * intros _. destruct (Z.ltb_spec 0 (availableCopies (this w) + 1));
          [|lia]. split; intros; [done|lia].
      * intros [_ Hb]. split; [lia|].
        apply list_find_split in Hf as (l1 & l2 & Hl & Hlen & _ & _ & Hr).
        rewrite Hl, <- Hlen. rewrite openLoans_close by done.
        rewrite Hl in Hb. lia.
    + rewrite (returnBook_not_found _ _ Hf). simpl.
      split; [done|]. split; [|split; [|done]].
      * split; [intros _; left|done]. intros [? Hs]. discriminate Hs.
      * intros [? Hs]. discriminate Hs.
Qed.

Lemma borrow_return_inventory_witness :
  within_stock (this two_lent) ∧
  ledger_backed (this (returnBook "u1" two_lent).1) ∧
  borrowed_iff_none_left (this (returnBook "u1" two_lent).1).
Proof.
  assert (Hs : within_stock (this two_lent)) by (vm_compute; split; discriminate).
  split; [exact Hs|].
  destruct (borrow_return_inventory "u1" two_lent Hs)
    as [_ (_ & _ & Hb & Hl)].
  split.
  - apply Hl. split; vm_compute; discriminate.
  - apply Hb. vm_compute. by eexists.
Defined.

(** ** Borrowing (C2, C3) *)

(** C2, as the specification states it, fails on the due date: the
    method computes [dueDate] from its own [new Date()], while
    [borrowDate] is the schema default [Date.now], read when the record
    is pushed. With a clock that shows 0 at the first read and 1 at the
    second, the record carries [borrowDate] 1 and [dueDate] 14 days
    after 0, which is not 14 days after its [borrowDate]. *)
Lemma borrowBook_due_date_skew :
  isAvailable (this two_copies) = true ∧
  borrowHistory (this (borrowBook "u1" two_copies).1) =
    [MkBorrowRecord "u1" 1 None (Some (addDays 0 14)) st_borrowed] ∧
  addDays 0 14 ≠ addDays 1 14.
Proof.
  split; [reflexivity|]. split; [vm_compute; reflexivity|].
  vm_compute. discriminate.
Qed.

(** C2 (amended): on a book for which [isAvailable] holds, [borrowBook]
    succeeds; afterwards [availableCopies] is one less, and exactly one
    record has been appended to [borrowHistory]: it is for [userId], has
    status ['borrowed'], no [returnDate], and its [dueDate] is 14 days
    after the time at which [borrowBook] read the clock. Its
    [borrowDate] is the next read of the clock, so [dueDate] is
    [borrowDate] plus 14 days when the clock did not advance between the
    two reads, and at most that for a clock that never runs backwards. *)
Theorem borrowBook_effect (userId : ObjectId) (w : World Book) :
  isAvailable (this w) = true →
  let res := borrowBook userId w in
  let b := this w in
  let b' := this res.1 in
  let t_call := readings (clock w) (reads (clock w)) in
  let t_push := readings (clock w) (S (reads (clock w))) in
  res.2 = Return b' ∧
  availableCopies b' = availableCopies b - 1 ∧
  ∃ rec, borrowHistory b' = borrowHistory b ++ [rec] ∧
         user rec = userId ∧ status rec = st_borrowed ∧
         returnDate rec = None ∧
         dueDate rec = Some (addDays t_call 14) ∧
         borrowDate rec = t_push ∧
         (t_push = t_call → dueDate rec = Some (addDays (borrowDate rec) 14)) ∧
         (monotone (clock w) → addDays t_call 14 ≤ addDays (borrowDate rec) 14).
Proof.
  intros Hav res b b' t_call t_push. subst res b b'.
  destruct (borrowBook_this userId w Hav) as (b' & Hret & Hthis & Hst).
  destruct (borrowed_world_fields userId w) as (Hn & _ & _ & Hh).
  destruct Hst as (_ & _ & _ & _ & _ & Hn' & _ & Hh').
  rewrite Hthis. split; [done|]. split; [by rewrite Hn'|].
  eexists. split; [by rewrite Hh', Hh|]. subst t_call t_push. simpl.
  unfold clock_time. repeat (split; [done|]). split.
  - intros Heq. by rewrite Heq.
  - intros Hmono. unfold addDays.
    specialize (Hmono (reads (clock w)) (S (reads (clock w)))). lia.
Qed.

Lemma borrowBook_effect_witness :
  isAvailable (this two_copies) = true ∧
  availableCopies (this (borrowBook "u1" two_copies).1) = 2 - 1.
Proof.
  split; [reflexivity|].
  exact (proj1 (proj2 (borrowBook_effect "u1" two_copies eq_refl))).
Defined.

(** C3: [isAvailable] is true iff [availability] is ['available'] and
    [availableCopies > 0]; [borrowBook] fails iff [isAvailable] is false,
    the failure is the error 'Book is not available for borrowing', and
    it leaves the book, the collection and the clock as they were. On a
    book that passes the schema's validators ([availableCopies ≥ 0])
    that is exactly when [availableCopies] is 0 or [availability] is not
    ['available']. *)
Theorem borrowBook_fails_iff_unavailable (userId : ObjectId) (w : World Book) :
  let res := borrowBook userId w in
  let b := this w in
  (isAvailable b = true ↔ availability b = available ∧ 0 < availableCopies b) ∧
  (¬ succeeded res ↔ isAvailable b = false) ∧
  (res.2 = Throw notAvailableError ↔ isAvailable b = false) ∧
  (schema_valid b →
     (res.2 = Throw notAvailableError ↔
        availableCopies b = 0 ∨ availability b ≠ available)) ∧
  (isAvailable b = false → res.1 = w).
Proof.
  intros res b. subst res b.
  pose proof (isAvailable_true (this w)) as Hiff.
  split; [done|].
  destruct (isAvailable (this w)) eqn:Hav.
  - destruct (borrowBook_this userId w Hav) as (b' & Hret & _).
    destruct Hiff as [[Ha Hp] _]; [done|].
    unfold succeeded, returned. rewrite Hret.
    split; [split; [intros []; by eexists|done]|].
    split; [done|]. split; [|done]. intros [_ Hnn].
    split; [done|]. intros [?|?]; [lia|done].
  - rewrite (borrowBook_unavailable _ _ Hav). simpl.
    split; [split; [done|]; intros _ [? Hs]; discriminate Hs|].
    split; [done|]. split; [|done]. intros [_ Hnn].
    split; [|done]. intros _.
    destruct (decide (availability (this w) = available)) as [Ha|]; [|by right].
    left. destruct (decide (0 < availableCopies (this w))); [|lia].
    destruct Hiff as [_ Hc]. by specialize (Hc (conj Ha ltac:(done))).
Qed.

Lemma borrowBook_fails_iff_unavailable_witness :
  schema_valid (this two_lent) ∧
  (borrowBook "u3" two_lent).2 = Throw notAvailableError ∧
  (borrowBook "u3" two_lent).1 = two_lent.
Proof.
  assert (Hv : schema_valid (this two_lent)) by (vm_compute; split; discriminate).
  split; [exact Hv|].
  destruct (borrowBook_fails_iff_unavailable "u3" two_lent)
    as (_ & _ & _ & Hthrow & Hsame).
  split.
  - apply (Hthrow Hv). left. vm_compute. reflexivity.
  - apply Hsame. vm_compute. reflexivity.
Defined.

(** The scenario of the specification: two copies; [u1] borrows, one
    copy is left and the book stays available; [u2] borrows, none is
    left and the book is borrowed; [u1] returns, one copy is back and
    the book is available again. *)
Example loan_scenario :
  let w1 := (borrowBook "u1" two_copies).1 in
  let w2 := (borrowBook "u2" w1).1 in
  let w3 := (returnBook "u1" w2).1 in
  (availableCopies (this w1), availability (this w1)) = (1, available) ∧
  (availableCopies (this w2), availability (this w2)) = (0, borrowed) ∧
  (availableCopies (this w3), availability (this w3)) = (1, available).
Proof. vm_compute. done. Qed.

(** ** Returning (C4, C5) *)

(** C4: when the ledger of a book holds a record of [userId] with
    status ['borrowed'], [returnBook] succeeds: the first such record in
    storage order gets status ['returned'] and the time of the call as
    [returnDate], no other record changes, [availableCopies] is one
    more, and [availability] is set to ['available'] when the resulting
    [availableCopies > 0]; on a book that passes the schema's validators
    ([availableCopies ≥ 0]) [availability] is ['available'] afterwards
    iff the resulting [availableCopies > 0]. *)
Theorem returnBook_effect (userId : ObjectId) (w : World Book) :
  (∃ r, r ∈ borrowHistory (this w) ∧ user r = userId ∧ status r = st_borrowed) →
  let res := returnBook userId w in
  let b := this w in
  let b' := this res.1 in
  res.2 = Return b' ∧
  (∃ l1 r l2,
     borrowHistory b = l1 ++ r :: l2 ∧
     Forall (λ x, ¬ (user x = userId ∧ status x = st_borrowed)) l1 ∧
     user r = userId ∧ status r = st_borrowed ∧
     borrowHistory b' =
       l1 ++ MkBorrowRecord (user r) (borrowDate r)
               (Some (clock_time (clock w))) (dueDate r) st_returned :: l2) ∧
  availableCopies b' = availableCopies b + 1 ∧
  (0 < availableCopies b' → availability b' = available) ∧
  (schema_valid b → (availability b' = available ↔ 0 < availableCopies b')).
Proof.
  intros (r0 & Hin & Hu & Hs) res b b'. subst res b b'.
  destruct (list_find_elem_of (activeFor userId) _ _ Hin (conj Hu Hs))
    as [[i r] Hf].
  destruct (returnBook_this userId w i r Hf) as (b' & Hret & Hthis & Hst).
  destruct (returned_world_fields i w) as (Hn & _ & Ha & Hh).
  destruct Hst as (_ & _ & _ & Ha' & _ & Hn' & _ & Hh').
  rewrite Hthis. split; [done|]. split; [|split; [|split]].
  - apply list_find_split in Hf as (l1 & l2 & Hl & Hlen & Hl1 & Hru & Hrs).
    exists l1, r, l2. repeat (split; [done|]).
    rewrite Hh', Hh, Hl, <- Hlen.
    rewrite alter_app_r_alt by lia. rewrite Nat.sub_diag. done.
  - by rewrite Hn'.
  - rewrite Ha', Hn', Ha, Hn.
    destruct (Z.ltb_spec 0 (availableCopies (this w) + 1)); [done|lia].
  - intros [_ Hnn]. rewrite Ha', Hn', Ha, Hn.
    destruct (Z.ltb_spec 0 (availableCopies (this w) + 1)); [done|lia].
Qed.

Lemma returnBook_effect_witness :
  schema_valid (this two_lent) ∧
  availableCopies (this (returnBook "u1" two_lent).1) =
    availableCopies (this two_lent) + 1 ∧
  (availability (this (returnBook "u1" two_lent).1) = available ↔
   0 < availableCopies (this (returnBook "u1" two_lent).1)).
Proof.
  assert (Hv : schema_valid (this two_lent)) by (vm_compute; split; discriminate).
  split; [exact Hv|].
  assert (Hopen : ∃ r, r ∈ borrowHistory (this two_lent) ∧ user r = "u1" ∧
                       status r = st_borrowed).
  { exists (MkBorrowRecord "u1" 1 None (Some (addDays 0 14)) st_borrowed).
    split; [vm_compute; apply list_elem_of_here|]. split; reflexivity. }
  destruct (returnBook_effect "u1" two_lent Hopen) as (_ & _ & Hn & _ & Hiff).
  split; [exact Hn|exact (Hiff Hv)].
Defined.

(** C5: when the ledger holds no record of [userId] with status
    ['borrowed'], [returnBook] fails with the error 'No active borrow
    record found for this user' and leaves the book (counters,
    availability, ledger), the collection and the clock as they were. *)
Theorem returnBook_without_loan (userId : ObjectId) (w : World Book) :
  (∀ r, r ∈ borrowHistory (this w) →
        ¬ (user r = userId ∧ status r = st_borrowed)) →
  returnBook userId w = (w, Throw noBorrowRecordError).
Proof.
  intros Hnone. apply returnBook_not_found.
  apply list_find_None, Forall_forall. exact Hnone.
Qed.

Lemma returnBook_without_loan_witness :
  returnBook "u3" two_lent = (two_lent, Throw noBorrowRecordError).
Proof.
  apply returnBook_without_loan.
  intros r Hr [Hu _]. vm_compute in Hr.
  apply elem_of_cons in Hr as [->|Hr]; [discriminate Hu|].
  apply elem_of_cons in Hr as [->|Hr]; [discriminate Hu|].
  by apply not_elem_of_nil in Hr.
Defined.

End BookProps.

(** * Properties of the annotation lifecycle *)

Module AnnotationProps.
Import AnnotationModel AnnotationSpec.

Lemma annotation_save_stamps (w : World Annotation) :
  ∃ a', (save w).2 = Return a' ∧ this (save w).1 = a' ∧
        db (save w).1 = <[_id a' := a']> (db w) ∧ stamped (this w) a'.
Proof.
  destruct w as [a m c]. unfold save, bind, getThis, getDb, when, now, putDb,
    modifyThis, ret; simpl.
  destruct (bool_decide (m !! _id a = None)),
           (bool_decide (m !! _id a ≠ Some a)),
           (bool_decide (createdAt a = None)); simpl;
    (eexists; split; [reflexivity|]; split; [reflexivity|];
     split; [reflexivity|]); repeat split.
Qed.

Lemma keyed_insert (coll : gmap string Annotation) a :
  keyed coll → keyed (<[_id a := a]> coll).
Proof.
  intros Hk k a' Hl. destruct (decide (_id a = k)) as [<-|Hne].
  - rewrite lookup_insert_eq in Hl. by injection Hl as <-.
  - rewrite lookup_insert_ne in Hl by done. by apply Hk.
Qed.

Lemma keyed_empty : keyed ∅.
Proof. intros k a Hl. by rewrite lookup_empty in Hl. Qed.

Lemma elem_of_find (P : Annotation → Prop) `{∀ a, Decision (P a)}
    (coll : gmap string Annotation) r :
  r ∈ find P coll ↔ P r ∧ ∃ k, coll !! k = Some r.
Proof.
  unfold find. rewrite list_elem_of_filter, list_elem_of_fmap. split.
  - intros [HP ([k a] & -> & Hin)]. split; [done|].
    exists k. by apply elem_of_map_to_list.
  - intros [HP [k Hk]]. split; [done|].
    exists (k, r). split; [done|]. by apply elem_of_map_to_list.
Qed.

(** A stored document that a [find] returns is the one stored under its
    [_id]. *)
Lemma find_stored (P : Annotation → Prop) `{∀ a, Decision (P a)}
    (coll : gmap string Annotation) r :
  keyed coll → r ∈ find P coll → P r ∧ coll !! _id r = Some r.
Proof.
  intros Hk [HP [k Hl]]%elem_of_find. split; [done|].
  by rewrite (Hk _ _ Hl).
Qed.

Lemma elem_of_sorted (R : relation Annotation) `{∀ a1 a2, Decision (R a1 a2)}
    (l : list Annotation) r :
  r ∈ merge_sort R l ↔ r ∈ l.
Proof. by rewrite merge_sort_Permutation. Qed.

Section Hidden_facts.
Context {UserView BookView : Type}.
Variable userView : ObjectId → option UserView.
Variable bookView : ObjectId → option BookView.
Variable regexTest : string → string → bool.

(** A document flagged as deleted in the collection is in no result. *)
Lemma deleted_hidden (coll : gmap string Annotation) id :
  keyed coll →
  (∀ a, coll !! id = Some a → isDeleted a = true) →
  hidden userView bookView regexTest id coll.
Proof.
  intros Hk Hdel.
  assert (Hno : ∀ r, coll !! _id r = Some r → isDeleted r = false → _id r ≠ id).
  { intros r Hl Hf <-. rewrite (Hdel _ Hl) in Hf. discriminate. }
  repeat split.
  - intros userId bookId r Hr. apply elem_of_sorted in Hr.
    apply (find_stored _ _ _ Hk) in Hr as [(_ & _ & Hf) Hl]. by apply Hno.
  - intros bookId r Hr. unfold findPublicAnnotations in Hr.
    apply list_elem_of_fmap in Hr as (a & -> & Hr). simpl.
    apply elem_of_sorted in Hr.
    apply (find_stored _ _ _ Hk) in Hr as [(_ & _ & Hf) Hl]. by apply Hno.
  - intros userId bookId ty r Hr. apply elem_of_sorted in Hr.
    apply (find_stored _ _ _ Hk) in Hr as [(_ & _ & _ & Hf) Hl]. by apply Hno.
  - intros userId q r Hr. unfold searchAnnotations in Hr.
    apply list_elem_of_fmap in Hr as (a & -> & Hr). simpl.
    apply elem_of_sorted in Hr.
    apply (find_stored _ _ _ Hk) in Hr as [(_ & Hf & _) Hl]. by apply Hno.
Qed.

(** A document flagged as private in the collection is in no result of
    [findPublicAnnotations]. *)
Lemma private_not_public (coll : gmap string Annotation) id bookId r :
  keyed coll →
  (∀ a, coll !! id = Some a → isPrivate a = true) →
  r ∈ findPublicAnnotations userView bookId coll → _id (doc r) ≠ id.
Proof.
  intros Hk Hpriv Hr. unfold findPublicAnnotations in Hr.
  apply list_elem_of_fmap in Hr as (a & -> & Hr). simpl.
  apply elem_of_sorted in Hr.
  apply (find_stored _ _ _ Hk) in Hr as [(_ & Hf & _) Hl].
  intros <-. rewrite (Hpriv _ Hl) in Hf. discriminate.
Qed.

(** A stored document that is public and not deleted is a result of
    [findPublicAnnotations] for its book. *)
Lemma public_found (coll : gmap string Annotation) a :
  coll !! _id a = Some a → isPrivate a = false → isDeleted a = false →
  MkPopulated a (userView (user a)) ∈
    findPublicAnnotations userView (book a) coll.
Proof.
  intros Hl Hp Hd. unfold findPublicAnnotations.
  apply list_elem_of_fmap. exists a. split; [done|].
  apply elem_of_sorted, elem_of_find. split; [done|]. by eexists.
Qed.
End Hidden_facts.

(** ** Soft deletion and privacy (C8, C9) *)

Lemma softDelete_this (w : World Annotation) :
  ∃ a', (softDelete w).2 = Return a' ∧ this (softDelete w).1 = a' ∧
        db (softDelete w).1 = <[_id a' := a']> (db w) ∧
        stamped (set_isDeleted true (this w)) a'.
Proof.
  destruct w as [a m c].
  exact (annotation_save_stamps (MkWorld (set_isDeleted true a) m c)).
Qed.

Lemma setPrivacy_this v (w : World Annotation) :
  ∃ a', (setPrivacy v w).2 = Return a' ∧ this (setPrivacy v w).1 = a' ∧
        db (setPrivacy v w).1 = <[_id a' := a']> (db w) ∧
        stamped (set_isPrivate v (this w)) a'.
Proof.
  destruct w as [a m c].
  exact (annotation_save_stamps (MkWorld (set_isPrivate v a) m c)).
Qed.

Lemma create_this inp (w : World Annotation) :
  ∃ a', ((newAnnotation inp ;; save) w).2 = Return a' ∧
        this ((newAnnotation inp ;; save) w).1 = a' ∧
        db ((newAnnotation inp ;; save) w).1 = <[_id a' := a']> (db w) ∧
        _id a' = in_id inp ∧ book a' = in_book inp ∧
        isPrivate a' = default true (in_isPrivate inp) ∧
        isDeleted a' = default false (in_isDeleted inp).
Proof.
  destruct w as [a m c].
  unfold bind at 1, newAnnotation, bind at 1, now, modifyThis. simpl.
  match goal with |- context [save ?w1] =>
    destruct (annotation_save_stamps w1) as (a' & Hret & Hthis & Hdb & Hst) end.
  exists a'. simpl in Hdb, Hst.
  destruct Hst as (? & _ & ? & _ & _ & _ & _ & ? & _ & _ & _ & ?).
  done.
Qed.

Section Visibility.
Context {UserView BookView : Type}.
Variable userView : ObjectId → option UserView.
Variable bookView : ObjectId → option BookView.
Variable regexTest : string → string → bool.

(** C8: [softDelete] sets [isDeleted] to true and stores the document;
    from then on none of [findUserAnnotations], [findPublicAnnotations],
    [findByType] and [searchAnnotations] returns it, whatever their
    arguments: not on the collection that [softDelete] leaves, and not
    on any later one in which the document still carries the flag. *)
Theorem softDelete_hides (w : World Annotation) :
  keyed (db w) →
  let res := softDelete w in
  let id := _id (this w) in
  (∃ a', res.2 = Return a' ∧ this res.1 = a' ∧ _id a' = id ∧
         isDeleted a' = true ∧ db res.1 !! id = Some a') ∧
  hidden userView bookView regexTest id (db res.1) ∧
  (∀ later : gmap string Annotation,
     keyed later →
     (∀ a, later !! id = Some a → isDeleted a = true) →
     hidden userView bookView regexTest id later).
Proof.
  intros Hk res id. subst res id.
  destruct (softDelete_this w) as (a' & Hret & Hthis & Hdb & Hst).
  destruct Hst as (Hid & _ & _ & _ & _ & _ & _ & _ & _ & _ & _ & Hdel).
  simpl in Hid, Hdel.
  assert (Hl : db (softDelete w).1 !! _id (this w) = Some a').
  { rewrite Hdb, <- Hid. apply lookup_insert_eq. }
  split; [by exists a'|]. split.
  - apply deleted_hidden.
    + rewrite Hdb. by apply keyed_insert.
    + intros a Ha. rewrite Hl in Ha. by injection Ha as <-.
  - intros later Hkl Hflag. by apply deleted_hidden.
Qed.

(** C9: an annotation created without a privacy flag has [isPrivate]
    true, and [findPublicAnnotations] does not return it, for its book
    or any other: not on the collection its creation leaves, and not on
    any later one in which it is still private. Once the flag has been
    set to false and saved, [findPublicAnnotations] for its book
    returns it (the annotation not being deleted). *)
Theorem private_by_default (inp : AnnotationInput) (w : World Annotation) :
  in_isPrivate inp = None →
  keyed (db w) →
  let created := (newAnnotation inp ;; save) w in
  let a := this created.1 in
  let cleared := setPrivacy false created.1 in
  created.2 = Return a ∧
  _id a = in_id inp ∧ book a = in_book inp ∧
  isPrivate a = true ∧
  (∀ bookId r, r ∈ findPublicAnnotations userView bookId (db created.1) →
               _id (doc r) ≠ _id a) ∧
  (∀ later : gmap string Annotation,
     keyed later →
     (∀ a', later !! _id a = Some a' → isPrivate a' = true) →
     ∀ bookId r, r ∈ findPublicAnnotations userView bookId later →
                 _id (doc r) ≠ _id a) ∧
  (in_isDeleted inp = None →
   ∃ r, r ∈ findPublicAnnotations userView (book a) (db cleared.1) ∧
        _id (doc r) = _id a ∧ isPrivate (doc r) = false).
Proof.
  intros Hnone Hk created a cleared. subst cleared a created.
  destruct (create_this inp w)
    as (a & Hret & Hthis & Hdb & Hid & Hbook & Hpriv & Hdel).
  rewrite Hnone in Hpriv. simpl in Hpriv. rewrite Hthis.
  repeat (split; [done|]). split; [|split].
  - intros bookId r. apply private_not_public.
    + rewrite Hdb. by apply keyed_insert.
    + intros a'. rewrite Hdb, lookup_insert_eq. by intros [= <-].
  - intros later Hkl Hflag bookId r. by apply private_not_public.
  - intros Hnd. rewrite Hnd in Hdel. simpl in Hdel.
    destruct (setPrivacy_this false ((newAnnotation inp ;; save) w).1)
      as (a' & _ & _ & Hdb' & Hst).
    rewrite Hthis in Hst.
    destruct Hst as (Hid' & Hu & Hb & _ & _ & _ & _ & Hp & _ & _ & _ & Hd).
    simpl in Hid', Hu, Hb, Hp, Hd.
    exists (MkPopulated a' (userView (user a'))). simpl.
    split; [|by split].
    rewrite <- Hb. apply public_found; [|done|by rewrite Hd].
    rewrite Hdb'. apply lookup_insert_eq.
Qed.
End Visibility.

Lemma softDelete_hides_witness :
  keyed (db oneStored) ∧
  hidden noUsers noBooks occursIn "a1" (db (softDelete oneStored).1).
Proof.
  assert (Hk : keyed (db oneStored)).
  { apply (keyed_insert ∅ (this oneStored)), keyed_empty. }
  split; [exact Hk|].
  exact (proj1 (proj2 (softDelete_hides noUsers noBooks occursIn oneStored Hk))).
Defined.

Lemma private_by_default_witness :
  in_isPrivate draft = None ∧ keyed (db emptyWorld) ∧
  isPrivate (this oneStored) = true.
Proof.
  split; [reflexivity|]. split; [exact keyed_empty|].
  exact (proj1 (proj2 (proj2 (proj2
    (private_by_default noUsers draft emptyWorld eq_refl keyed_empty))))).
Defined.

(** ** Likes (C6, C7, C10) *)

Lemma isLikedBy_app userId a l1 l2 :
  likes a = l1 ++ l2 →
  isLikedBy userId a =
  existsb (λ l, String.eqb (like_user l) userId) l1 ||
  existsb (λ l, String.eqb (like_user l) userId) l2.
Proof. unfold isLikedBy. intros ->. apply existsb_app. Qed.

Lemma existsb_none userId (l : list Like) :
  Forall (λ x, like_user x ≠ userId) l →
  existsb (λ l, String.eqb (like_user l) userId) l = false.
Proof.
  induction 1 as [|x l Hx _ IH]; [done|]. simpl. rewrite IH.
  by apply String.eqb_neq in Hx as ->.
Qed.

(** [some] and [findIndex] agree on whether the user is among the
    likers. *)
Lemma isLikedBy_find userId a :
  isLikedBy userId a =
  bool_decide (is_Some (list_find (λ l, like_user l = userId) (likes a))).
Proof.
  destruct (list_find _ (likes a)) as [[i e]|] eqn:Hf.
  - apply list_find_split in Hf as (l1 & l2 & Hl & _ & _ & He).
    rewrite (isLikedBy_app _ _ _ _ Hl). simpl.
    apply String.eqb_eq in He as ->. by rewrite orb_true_r.
  - apply list_find_None in Hf. unfold isLikedBy. by rewrite existsb_none.
Qed.

(** The like path and the unlike path of [toggleLike]. *)
Lemma toggleLike_unlike userId (w : World Annotation) i e :
  list_find (λ l, like_user l = userId) (likes (this w)) = Some (i, e) →
  toggleLike userId w =
    (MkWorld (set_likes (delete i (likes (this w))) (this w)) (db w) (clock w),
     Return (MkToggleResult unliked (length (delete i (likes (this w)))))).
Proof.
  intros Hf. destruct w as [a m c]. simpl in *.
  unfold toggleLike, bind at 1, getThis at 1. simpl. by rewrite Hf.
Qed.

Lemma toggleLike_like userId (w : World Annotation) :
  list_find (λ l, like_user l = userId) (likes (this w)) = None →
  toggleLike userId w =
    (MkWorld
       (set_likes (likes (this w) ++ [MkLike userId (clock_time (clock w))])
                  (this w))
       (db w) (clock_tick (clock w)),
     Return (MkToggleResult liked
               (length (likes (this w) ++
                          [MkLike userId (clock_time (clock w))])))).
Proof.
  intros Hf. destruct w as [a m c]. simpl in *.
  unfold toggleLike, bind at 1, getThis at 1. simpl. by rewrite Hf.
Qed.

Lemma filter_none (P : Like → Prop) `{∀ x, Decision (P x)} (l : list Like) :
  length (filter P l) = 0%nat → Forall (λ x, ¬ P x) l.
Proof.
  induction l as [|x l IH]; [done|]. rewrite filter_cons.
  case_decide; simpl; [done|]. intros Hl. by constructor; [|apply IH].
Qed.

(** C7: when the user is among the likers, [toggleLike] removes one
    entry of that user, the first one, and returns the action 'unliked';
    otherwise it appends one entry for the user, liked at the time of
    the call, and returns the action 'liked'. In both cases the returned
    [likeCount] is the length of [likes] after the change. *)
Theorem toggleLike_effect (userId : ObjectId) (w : World Annotation) :
  let res := toggleLike userId w in
  let a := this w in
  let a' := this res.1 in
  res.2 = Return (MkToggleResult (if isLikedBy userId a then unliked else liked)
                                 (length (likes a'))) ∧
  if isLikedBy userId a then
    ∃ l1 e l2, likes a = l1 ++ e :: l2 ∧ like_user e = userId ∧
               Forall (λ x, like_user x ≠ userId) l1 ∧
               likes a' = l1 ++ l2
  else
    likes a' = likes a ++ [MkLike userId (clock_time (clock w))].
Proof.
  intros res a a'. subst res a a'. rewrite isLikedBy_find.
  destruct (list_find _ (likes (this w))) as [[i e]|] eqn:Hf.
  - rewrite (toggleLike_unlike _ _ _ _ Hf). simpl. split; [done|].
    apply list_find_split in Hf as (l1 & l2 & Hl & Hlen & Hl1 & He).
    exists l1, e, l2. repeat (split; [done|]).
    rewrite Hl, <- Hlen. apply delete_middle.
  - rewrite (toggleLike_like _ _ Hf). simpl. done.
Qed.

(** C10: [toggleLike] changes nothing of the annotation but [likes]:
    [user], [book], [type], [content], [position], [color], [isPrivate],
    [tags], [replies] and [isDeleted] are as before, as are the [_id],
    the dates, and, no save being made, the stored collection. *)
Theorem toggleLike_frame (userId : ObjectId) (w : World Annotation) :
  let a := this w in
  let a' := this (toggleLike userId w).1 in
  user a' = user a ∧ book a' = book a ∧ type a' = type a ∧
  content a' = content a ∧ position a' = position a ∧ color a' = color a ∧
  isPrivate a' = isPrivate a ∧ tags a' = tags a ∧ replies a' = replies a ∧
  isDeleted a' = isDeleted a ∧
  a' = set_likes (likes a') a ∧
  db (toggleLike userId w).1 = db w.
Proof.
  intros a a'. subst a a'.
  destruct (list_find (λ l, like_user l = userId) (likes (this w)))
    as [[i e]|] eqn:Hf.
  - rewrite (toggleLike_unlike _ _ _ _ Hf). simpl. done.
  - rewrite (toggleLike_like _ _ Hf). simpl. done.
Qed.

(** C6, as the specification states it, fails on an annotation in which
    the user has two entries among the likers: each of the two calls
    finds an entry and removes it. With [likes] holding two entries of
    [u2], two calls of [toggleLike] for [u2] leave no like: the count
    went from 2 to 0 and [u2] is no longer among the likers. *)
Lemma toggleLike_twice_duplicates :
  likeCount (this doubleLiked) = 2%nat ∧
  isLikedBy "u2" (this doubleLiked) = true ∧
  likeCount (this (toggleTwice "u2" doubleLiked).1) = 0%nat ∧
  isLikedBy "u2" (this (toggleTwice "u2" doubleLiked).1) = false.
Proof. repeat split; vm_compute; reflexivity. Qed.

(** C6 (amended): on an annotation in which the user has at most one
    entry among the likers, two calls of [toggleLike] in a row with that
    user both return, and bring the annotation back to its like count
    and to its membership: every user is among the likers afterwards iff
    they were before. *)
Theorem toggleLike_twice (userId : ObjectId) (w : World Annotation) :
  (likedTimes userId (this w) ≤ 1)%nat →
  let res := toggleTwice userId w in
  (∃ r, res.2 = Return r ∧ result_likeCount r = likeCount (this w)) ∧
  likeCount (this res.1) = likeCount (this w) ∧
  ∀ v, isLikedBy v (this res.1) = isLikedBy v (this w).
Proof.
  intros Hone res. subst res. unfold toggleTwice, bind.
  destruct (list_find (λ l, like_user l = userId) (likes (this w)))
    as [[i e]|] eqn:Hf.
  - rewrite (toggleLike_unlike _ _ _ _ Hf).
    apply list_find_split in Hf as (l1 & l2 & Hl & Hlen & Hl1 & He).
    assert (Hl2 : Forall (λ x, like_user x ≠ userId) l2).
    { apply (filter_none (λ x, like_user x = userId)).
      unfold likedTimes in Hone. rewrite Hl in Hone.
      rewrite filter_app, filter_cons, decide_True, length_app in Hone by done.
      simpl in Hone. lia. }
    assert (Hdel : delete i (likes (this w)) = l1 ++ l2).
    { rewrite Hl, <- Hlen. apply delete_middle. }
    rewrite Hdel.
    rewrite toggleLike_like; simpl.
    2:{ apply list_find_None, Forall_app. done. }
    unfold likeCount. simpl. rewrite Hl, !length_app. simpl.
    split; [eexists; split; [done|simpl; lia]|]. split; [lia|].
    intros v. unfold isLikedBy. simpl. rewrite Hl, !existsb_app. simpl.
    rewrite He, orb_false_r.
    by rewrite <- orb_assoc, (orb_comm (existsb _ l2)).
  - rewrite (toggleLike_like _ _ Hf).
    apply list_find_None in Hf.
    erewrite toggleLike_unlike; simpl.
    2:{ by apply list_find_first. }
    rewrite (delete_middle _ []), app_nil_r.
    unfold likeCount. simpl. split; [by eexists|]. done.
Qed.

Lemma toggleLike_twice_witness :
  (likedTimes "u2" (this oneStored) ≤ 1)%nat ∧
  likeCount (this (toggleTwice "u2" oneStored).1) = likeCount (this oneStored).
Proof.
  assert (H1 : (likedTimes "u2" (this oneStored) ≤ 1)%nat)
    by (vm_compute; lia).
  split; [exact H1|].
  exact (proj1 (proj2 (toggleLike_twice "u2" oneStored H1))).
Defined.

End AnnotationProps.

(** * More on the loan lifecycle *)

Module BookLifecycle.
Import BookModel BookSpec BookProps.

(** The whole result of a [borrowBook] on an available book. *)
Lemma borrowBook_run userId (w : World Book) :
  isAvailable (this w) = true →
  ∃ b' c', borrowBook userId w =
             (MkWorld b' (<[_id b' := b']> (db w)) c', Return b') ∧
           stamped (this (borrowed_world userId w)) b' ∧
           _id b' = _id (this w).
Proof.
  intros Hav. rewrite (borrowBook_available _ _ Hav).
  destruct (book_save_stamps (borrowed_world userId w))
    as (b' & Hret & Hthis & Hdb & Hst).
  assert (Hid : _id b' = _id (this w)).
  { destruct Hst as [-> _]. simpl.
    by destruct (availableCopies (this w) - 1 =? 0). }
  destruct (save (borrowed_world userId w)) as [[b1 m1 c1] o].
  simpl in *. subst. by exists b', c1.
Qed.

(** The whole result of a [returnBook] that found an open record. *)
Lemma returnBook_run userId (w : World Book) i r :
  list_find (activeFor userId) (borrowHistory (this w)) = Some (i, r) →
  ∃ b' c', returnBook userId w =
             (MkWorld b' (<[_id b' := b']> (db w)) c', Return b') ∧
           stamped (this (returned_world i w)) b' ∧
           _id b' = _id (this w).
Proof.
  intros Hf. rewrite (returnBook_found _ _ _ _ Hf).
  destruct (book_save_stamps (returned_world i w))
    as (b' & Hret & Hthis & Hdb & Hst).
  assert (Hid : _id b' = _id (this w)).
  { destruct Hst as [-> _]. simpl.
    by destruct (0 <? availableCopies (this w) + 1). }
  destruct (save (returned_world i w)) as [[b1 m1 c1] o].
  simpl in *. subst. by exists b', c1.
Qed.

Lemma keyedBooks_insert (coll : gmap string Book) b :
  keyedBooks coll → keyedBooks (<[_id b := b]> coll).
Proof.
  intros Hk k b' Hl. destruct (decide (_id b = k)) as [<-|Hne].
  - rewrite lookup_insert_eq in Hl. by injection Hl as <-.
  - rewrite lookup_insert_ne in Hl by done. by apply Hk.
Qed.

Lemma keyedBooks_empty : keyedBooks ∅.
Proof. intros k b Hl. by rewrite lookup_empty in Hl. Qed.

Lemma elem_of_findAvailable (coll : gmap string Book) b :
  b ∈ findAvailable coll ↔
  (∃ k, coll !! k = Some b) ∧ availability b = available ∧
  0 < availableCopies b.
Proof.
  unfold findAvailable. rewrite list_elem_of_filter, list_elem_of_fmap. split.
  - intros [HP ([k b0] & -> & Hin)]. split; [|done].
    exists k. by apply elem_of_map_to_list.
  - intros [[k Hk] HP]. split; [done|].
    exists (k, b). split; [done|]. by apply elem_of_map_to_list.
Qed.

(** X1: [findAvailable] lists exactly the stored books that
    [isAvailable] accepts: the query of the static and the test of the
    method agree. In particular it lists nothing on an empty
    collection. *)
Theorem findAvailable_isAvailable (coll : gmap string Book) (b : Book) :
  (b ∈ findAvailable coll ↔
     (∃ k, coll !! k = Some b) ∧ isAvailable b = true) ∧
  findAvailable ∅ = [].
Proof.
  split.
  - rewrite elem_of_findAvailable, isAvailable_true. done.
  - unfold findAvailable. by rewrite map_to_list_empty.
Qed.

(** X2: after a successful [borrowBook], the collection lists the book
    as available iff a copy is left, that is iff it had more than one
    copy before; and no other document with the book's [_id] is
    listed. *)
Theorem borrowBook_listing (userId : ObjectId) (w : World Book) :
  keyedBooks (db w) →
  isAvailable (this w) = true →
  let res := borrowBook userId w in
  let b' := this res.1 in
  res.2 = Return b' ∧
  (b' ∈ findAvailable (db res.1) ↔ 1 < availableCopies (this w)) ∧
  (∀ b, b ∈ findAvailable (db res.1) → _id b = _id (this w) → b = b').
Proof.
  intros Hk Hav res b'. subst res b'.
  destruct (borrowBook_run userId w Hav) as (b' & c' & -> & Hst & Hid). simpl.
  destruct (borrowed_world_fields userId w) as (Hn & _ & Ha & _).
  destruct Hst as (_ & _ & _ & Ha' & _ & Hn' & _).
  apply isAvailable_true in Hav as [Hav Hpos].
  split; [done|]. split.
  - rewrite elem_of_findAvailable, Ha', Hn', Ha, Hn, Hav. split.
    + intros (_ & Hb & ?).
      destruct (Z.eqb_spec (availableCopies (this w) - 1) 0); [done|lia].
    + intros Hgt. split; [exists (_id b'); apply lookup_insert_eq|].
      destruct (Z.eqb_spec (availableCopies (this w) - 1) 0); [lia|].
      split; [done|lia].
  - intros b [[k Hl] _]%elem_of_findAvailable Hb.
    pose proof (keyedBooks_insert _ b' Hk _ _ Hl) as Hkb.
    rewrite <- Hkb, Hb, <- Hid, lookup_insert_eq in Hl. by injection Hl.
Qed.

Lemma borrowBook_listing_witness :
  keyedBooks (db two_copies) ∧ isAvailable (this two_copies) = true ∧
  this (borrowBook "u1" two_copies).1
    ∈ findAvailable (db (borrowBook "u1" two_copies).1).
Proof.
  assert (Hk : keyedBooks (db two_copies)) by exact keyedBooks_empty.
  split; [exact Hk|]. split; [reflexivity|].
  apply (proj1 (proj2 (borrowBook_listing "u1" two_copies Hk eq_refl))).
  vm_compute. reflexivity.
Defined.

(** X3: after a successful [returnBook] on a book whose
    [availableCopies] was not negative, the collection lists the book as
    available, whatever its [availability] was before. *)
Theorem returnBook_relists (userId : ObjectId) (w : World Book) :
  (∃ r, r ∈ borrowHistory (this w) ∧ user r = userId ∧ status r = st_borrowed) →
  0 ≤ availableCopies (this w) →
  let res := returnBook userId w in
  res.2 = Return (this res.1) ∧
  this res.1 ∈ findAvailable (db res.1).
Proof.
  intros (r0 & Hin & Hu & Hs) Hnn res. subst res.
  destruct (list_find_elem_of (activeFor userId) _ _ Hin (conj Hu Hs))
    as [[i r] Hf].
  destruct (returnBook_run userId w i r Hf) as (b' & c' & -> & Hst & _). simpl.
  destruct (returned_world_fields i w) as (Hn & _ & Ha & _).
  destruct Hst as (_ & _ & _ & Ha' & _ & Hn' & _).
  split; [done|].
  rewrite elem_of_findAvailable, Ha', Hn', Ha, Hn.
  split; [exists (_id b'); apply lookup_insert_eq|].
  destruct (Z.ltb_spec 0 (availableCopies (this w) + 1)); [|lia].
  split; [done|lia].
Qed.

Lemma returnBook_relists_witness :
  0 ≤ availableCopies (this two_lent) ∧
  this (returnBook "u1" two_lent).1
    ∈ findAvailable (db (returnBook "u1" two_lent).1).
Proof.
  assert (Hnn : 0 ≤ availableCopies (this two_lent))
    by (vm_compute; discriminate).
  split; [exact Hnn|].
  refine (proj2 (returnBook_relists "u1" two_lent _ Hnn)).
  exists (MkBorrowRecord "u1" 1 None (Some (addDays 0 14)) st_borrowed).
  split; [vm_compute; apply list_elem_of_here|]. split; reflexivity.
Defined.


(** The fields of the book that a successful [borrowBook] leaves. *)
Lemma borrowBook_fields userId (w : World Book) :
  isAvailable (this w) = true →
  ∃ b' c' rec,
    borrowBook userId w =
      (MkWorld b' (<[_id b' := b']> (db w)) c', Return b') ∧
    _id b' = _id (this w) ∧
    availableCopies b' = availableCopies (this w) - 1 ∧
    totalCopies b' = totalCopies (this w) ∧
    availability b' =
      (if availableCopies (this w) - 1 =? 0 then borrowed else available) ∧
    borrowHistory b' = borrowHistory (this w) ++ [rec] ∧
    user rec = userId ∧ status rec = st_borrowed.
Proof.
  intros Hav.
  destruct (borrowBook_run userId w Hav) as (b' & c' & Hrun & Hst & Hid).
  destruct (borrowed_world_fields userId w) as (Hn & Ht & Ha & Hh).
  destruct Hst as (_ & _ & _ & Ha' & Ht' & Hn' & _ & Hh').
  apply isAvailable_true in Hav as [Hav _].
  eexists b', c', _. split; [done|]. split; [done|].
  rewrite Hn', Ht', Ha', Hh', Hn, Ht, Ha, Hh, Hav. done.
Qed.

(** The fields of the book that [returnBook] leaves when the first open
    record of the user is [r], between [l1] and [l2]. *)
Lemma returnBook_fields userId (w : World Book) l1 r l2 :
  borrowHistory (this w) = l1 ++ r :: l2 →
  Forall (λ x, ¬ activeFor userId x) l1 → activeFor userId r →
  ∃ b' c',
    returnBook userId w =
      (MkWorld b' (<[_id b' := b']> (db w)) c', Return b') ∧
    _id b' = _id (this w) ∧
    availableCopies b' = availableCopies (this w) + 1 ∧
    totalCopies b' = totalCopies (this w) ∧
    availability b' =
      (if 0 <? availableCopies (this w) + 1 then available
       else availability (this w)) ∧
    borrowHistory b' =
      l1 ++ MkBorrowRecord (user r) (borrowDate r)
              (Some (clock_time (clock w))) (dueDate r) st_returned :: l2.
Proof.
  intros Hl Hl1 Hr.
  assert (Hf : list_find (activeFor userId) (borrowHistory (this w)) =
               Some (length l1, r)).
  { rewrite Hl. by apply list_find_first. }
  destruct (returnBook_run userId w _ _ Hf) as (b' & c' & Hrun & Hst & Hid).
  destruct (returned_world_fields (length l1) w) as (Hn & Ht & Ha & Hh).
  destruct Hst as (_ & _ & _ & Ha' & Ht' & Hn' & _ & Hh').
  exists b', c'. split; [done|]. split; [done|].
  rewrite Hn', Ht', Ha', Hh', Hn, Ht, Ha, Hh, Hl.
  rewrite alter_app_r_alt by lia. rewrite Nat.sub_diag. done.
Qed.

(** The first open record of a user who has one. *)
Lemma first_open_record userId (h : list BorrowRecord) :
  (∃ r, r ∈ h ∧ activeFor userId r) →
  ∃ l1 r l2, h = l1 ++ r :: l2 ∧
             Forall (λ x, ¬ activeFor userId x) l1 ∧ activeFor userId r.
Proof.
  intros (r0 & Hin & Hr0).
  destruct (list_find_elem_of (activeFor userId) _ _ Hin Hr0) as [[i r] Hf].
  apply list_find_split in Hf as (l1 & l2 & Hl & _ & Hl1 & Hr).
  by exists l1, r, l2.
Qed.

(** X4: borrowing an available book and returning it right away, by
    the same user, both succeed and restore the inventory:
    [availableCopies], [totalCopies] and [availability] are as before
    the two calls, the ledger has as many open loans as before, and it
    is one record longer. *)
Theorem borrow_then_return (userId : ObjectId) (w : World Book) :
  isAvailable (this w) = true →
  let w1 := (borrowBook userId w).1 in
  let res := returnBook userId w1 in
  let b := this w in
  let b2 := this res.1 in
  (borrowBook userId w).2 = Return (this w1) ∧
  res.2 = Return b2 ∧
  availableCopies b2 = availableCopies b ∧
  totalCopies b2 = totalCopies b ∧
  availability b2 = availability b ∧
  openLoans (borrowHistory b2) = openLoans (borrowHistory b) ∧
  length (borrowHistory b2) = S (length (borrowHistory b)).
Proof.
  intros Hav w1 res b b2. subst w1 res b b2.
  destruct (borrowBook_fields userId w Hav)
    as (b1 & c1 & rec & -> & _ & Hn1 & Ht1 & _ & Hh1 & Hu & Hs).
  simpl.
  destruct (first_open_record userId (borrowHistory b1))
    as (l1 & r & l2 & Hl & Hl1 & Hr).
  { exists rec. split; [|done]. rewrite Hh1. apply elem_of_app. right.
    apply list_elem_of_here. }
  destruct (returnBook_fields userId (MkWorld b1 (<[_id b1:=b1]> (db w)) c1)
              l1 r l2 Hl Hl1 Hr)
    as (b2 & c2 & -> & _ & Hn2 & Ht2 & Ha2 & Hh2).
  simpl in *. apply isAvailable_true in Hav as [Hav Hpos].
  split; [done|]. split; [done|]. split; [lia|]. split; [congruence|].
  split; [|split].
  - rewrite Ha2, Hav.
    destruct (Z.ltb_spec 0 (availableCopies b1 + 1)); [done|lia].
  - assert (Hopen : openLoans (borrowHistory b1) =
                    openLoans (borrowHistory (this w)) + 1).
    { rewrite Hh1, openLoans_app, openLoans_cons, Hs. simpl.
      change (openLoans []) with 0. lia. }
    rewrite Hl in Hopen. rewrite Hh2.
    rewrite !openLoans_app, !openLoans_cons in *. simpl.
    destruct Hr as [_ Hrs]. rewrite Hrs in Hopen. simpl in Hopen. lia.
  - assert (Hlen : length (borrowHistory b1) =
                   S (length (borrowHistory (this w)))).
    { rewrite Hh1, length_app. simpl. lia. }
    rewrite Hl in Hlen. rewrite Hh2. rewrite !length_app in *. simpl in *.
    lia.
Qed.

Lemma borrow_then_return_witness :
  isAvailable (this two_copies) = true ∧
  availableCopies
    (this (returnBook "u1" (borrowBook "u1" two_copies).1).1) =
  availableCopies (this two_copies).
Proof.
  split; [reflexivity|].
  exact (proj1 (proj2 (proj2 (borrow_then_return "u1" two_copies eq_refl)))).
Defined.


(** X5: a book whose [availability] is ['available'] and that has as
    many available copies as there are users in a non-empty list can be
    borrowed by each of them in turn: every call succeeds, the last one
    takes the last copy and sets [availability] to ['borrowed'], each
    call added one record to the ledger, and the next [borrowBook], by
    anyone, fails and changes nothing. *)
Theorem borrowEach_exhausts (users : list ObjectId) (w : World Book) :
  users ≠ [] →
  availability (this w) = available →
  availableCopies (this w) = Z.of_nat (length users) →
  let res := borrowEach users w in
  res.2 = Return tt ∧
  availableCopies (this res.1) = 0 ∧
  availability (this res.1) = borrowed ∧
  totalCopies (this res.1) = totalCopies (this w) ∧
  user <$> borrowHistory (this res.1) =
    (user <$> borrowHistory (this w)) ++ users ∧
  ∀ userId, borrowBook userId res.1 = (res.1, Throw notAvailableError).
Proof.
  revert w. induction users as [|u rest IH]; [done|].
  intros w _ Hav Hn res. subst res.
  assert (Hok : isAvailable (this w) = true).
  { apply isAvailable_true. split; [done|]. rewrite Hn. simpl. lia. }
  destruct (borrowBook_fields u w Hok)
    as (b1 & c1 & rec & Hrun & _ & Hn1 & Ht1 & Ha1 & Hh1 & Hu & _).
  set (w1 := MkWorld b1 (<[_id b1:=b1]> (db w)) c1) in *.
  assert (Hstep : borrowEach (u :: rest) w = borrowEach rest w1).
  { simpl. unfold bind. by rewrite Hrun. }
  rewrite Hstep. clear Hstep.
  destruct rest as [|u2 rest].
  - simpl. simpl in Hn.
    assert (Hz : availableCopies b1 = 0) by lia.
    rewrite <- Hn1, Hz in Ha1. simpl in Ha1.
    split; [done|]. split; [done|]. split; [done|]. split; [done|].
    split; [by rewrite Hh1, fmap_app; simpl; rewrite Hu|].
    intros userId. apply borrowBook_unavailable. simpl.
    unfold isAvailable. by rewrite Ha1.
  - assert (Hn1' : availableCopies (this w1) = Z.of_nat (length (u2 :: rest))).
    { simpl. simpl in Hn. lia. }
    assert (Ha1' : availability (this w1) = available).
    { simpl. rewrite Ha1.
      destruct (Z.eqb_spec (availableCopies (this w) - 1) 0); [|done].
      simpl in Hn. lia. }
    destruct (IH w1 ltac:(done) Ha1' Hn1') as (Hr & Hz & Hb & Ht & Hh & Hnext).
    split; [done|]. split; [done|]. split; [done|].
    split; [by rewrite Ht|]. split; [|done].
    rewrite Hh. simpl. rewrite Hh1, fmap_app. simpl. rewrite Hu.
    by rewrite <- app_assoc.
Qed.

Lemma borrowEach_exhausts_witness :
  availability (this two_copies) = available ∧
  availableCopies (this two_copies) = Z.of_nat (length ["u1"; "u2"]) ∧
  availability (this (borrowEach ["u1"; "u2"] two_copies).1) = borrowed.
Proof.
  split; [reflexivity|]. split; [reflexivity|].
  refine (proj1 (proj2 (proj2
    (borrowEach_exhausts ["u1"; "u2"] two_copies _ eq_refl eq_refl)))).
  discriminate.
Defined.

Lemma no_open_loans userId (h : list BorrowRecord) :
  openLoansOf userId h = 0%nat → Forall (λ x, ¬ activeFor userId x) h.
Proof.
  unfold openLoansOf. induction h as [|x h IH]; [done|].
  rewrite filter_cons. case_decide; simpl; [done|].
  intros Hl. by constructor; [|apply IH].
Qed.

Lemma openLoansOf_none userId (h : list BorrowRecord) :
  Forall (λ x, ¬ activeFor userId x) h → openLoansOf userId h = 0%nat.
Proof.
  unfold openLoansOf. induction 1 as [|x h Hx _ IH]; [done|].
  by rewrite filter_cons, decide_False.
Qed.

(** X6: a successful [returnBook] closes exactly one loan of the user:
    the user has one open record less in the ledger and every other
    user has as many as before. A user who had a single open record has
    none left, and a second [returnBook] fails and changes nothing. *)
Theorem returnBook_closes_one (userId : ObjectId) (w : World Book) :
  (∃ r, r ∈ borrowHistory (this w) ∧ user r = userId ∧ status r = st_borrowed) →
  let res := returnBook userId w in
  let h := borrowHistory (this w) in
  let h' := borrowHistory (this res.1) in
  S (openLoansOf userId h') = openLoansOf userId h ∧
  (∀ other, other ≠ userId → openLoansOf other h' = openLoansOf other h) ∧
  length h' = length h ∧
  (openLoansOf userId h = 1%nat →
   returnBook userId res.1 = (res.1, Throw noBorrowRecordError)).
Proof.
  intros Hopen res h h'. subst res h h'.
  destruct (first_open_record userId (borrowHistory (this w)) Hopen)
    as (l1 & r & l2 & Hl & Hl1 & Hr).
  destruct (returnBook_fields userId w l1 r l2 Hl Hl1 Hr)
    as (b' & c' & -> & _ & _ & _ & _ & Hh').
  simpl. rewrite Hh', Hl.
  assert (Hcount : S (openLoansOf userId
            (l1 ++ MkBorrowRecord (user r) (borrowDate r)
                     (Some (clock_time (clock w))) (dueDate r) st_returned
                   :: l2)) = openLoansOf userId (l1 ++ r :: l2)).
  { unfold openLoansOf. rewrite !filter_app, !filter_cons.
    rewrite (decide_True _ _ Hr).
    rewrite decide_False by (by intros [_ ?]).
    rewrite !length_app. simpl. lia. }
  split; [done|]. split; [|split].
  - intros other Hne. unfold openLoansOf. rewrite !filter_app, !filter_cons.
    destruct Hr as [Hru _].
    rewrite decide_False by (by intros [_ ?]).
    rewrite decide_False by (intros [? _]; congruence). done.
  - rewrite !length_app. done.
  - intros Hone. apply returnBook_not_found. simpl. rewrite Hh'.
    apply list_find_None, no_open_loans. lia.
Qed.

Lemma returnBook_closes_one_witness :
  returnBook "u1" (returnBook "u1" two_lent).1 =
    ((returnBook "u1" two_lent).1, Throw noBorrowRecordError).
Proof.
  refine (proj2 (proj2 (proj2 (returnBook_closes_one "u1" two_lent _))) _).
  - exists (MkBorrowRecord "u1" 1 None (Some (addDays 0 14)) st_borrowed).
    split; [vm_compute; apply list_elem_of_here|]. split; reflexivity.
  - vm_compute. reflexivity.
Defined.

(** X7: a successful [borrowBook] or [returnBook] stores the book it
    returns under the book's [_id] and touches no other stored
    document; a failed one leaves the collection as it was. Either way
    a collection in which every book sits under its own [_id] stays
    so. *)
Theorem loans_are_persisted (userId : ObjectId) (w : World Book) :
  let outcome_of (res : World Book * outcome Book) :=
    match res.2 with
    | Return b' =>
        this res.1 = b' ∧ _id b' = _id (this w) ∧
        db res.1 !! _id (this w) = Some b' ∧
        ∀ k, k ≠ _id (this w) → db res.1 !! k = db w !! k
    | Throw _ => res.1 = w
    end ∧
    (keyedBooks (db w) → keyedBooks (db res.1)) in
  outcome_of (borrowBook userId w) ∧ outcome_of (returnBook userId w).
Proof.
  assert (Hsaved : ∀ b' c', _id b' = _id (this w) →
    (this (MkWorld b' (<[_id b' := b']> (db w)) c') = b' ∧
     _id b' = _id (this w) ∧
     db (MkWorld b' (<[_id b' := b']> (db w)) c') !! _id (this w) = Some b' ∧
     ∀ k, k ≠ _id (this w) →
          db (MkWorld b' (<[_id b' := b']> (db w)) c') !! k = db w !! k) ∧
    (keyedBooks (db w) →
     keyedBooks (db (MkWorld b' (<[_id b' := b']> (db w)) c')))).
  { intros b' c' Hid. simpl. split; [|by apply keyedBooks_insert].
    split; [done|]. split; [done|]. rewrite <- Hid. split.
    - apply lookup_insert_eq.
    - intros k Hk. by rewrite lookup_insert_ne. }
  simpl. split.
  - destruct (isAvailable (this w)) eqn:Hav.
    + destruct (borrowBook_run userId w Hav) as (b' & c' & -> & _ & Hid).
      by apply Hsaved.
    + by rewrite (borrowBook_unavailable _ _ Hav).
  - destruct (list_find (activeFor userId) (borrowHistory (this w)))
      as [[i r]|] eqn:Hf.
    + destruct (returnBook_run userId w i r Hf) as (b' & c' & -> & _ & Hid).
      by apply Hsaved.
    + by rewrite (returnBook_not_found _ _ Hf).
Qed.

(** X16: neither [borrowBook] nor [returnBook], succeeding or failing,
    changes the catalogue data of the book: [_id], [title], [author],
    [totalCopies] and [addedBy] are as before. [borrowBook] only ever
    adds to the end of the ledger, and [returnBook] keeps the length of
    the ledger and the [user], [borrowDate] and [dueDate] of every
    record. *)
Theorem loans_keep_catalogue (userId : ObjectId) (w : World Book) :
  let kept (b' : Book) :=
    _id b' = _id (this w) ∧ title b' = title (this w) ∧
    author b' = author (this w) ∧ totalCopies b' = totalCopies (this w) ∧
    addedBy b' = addedBy (this w) in
  let terms (r : BorrowRecord) := (user r, borrowDate r, dueDate r) in
  kept (this (borrowBook userId w).1) ∧
  kept (this (returnBook userId w).1) ∧
  borrowHistory (this w) `prefix_of`
    borrowHistory (this (borrowBook userId w).1) ∧
  terms <$> borrowHistory (this (returnBook userId w).1) =
    terms <$> borrowHistory (this w).
Proof.
  simpl. split; [|split; [|split]].
  - destruct (isAvailable (this w)) eqn:Hav.
    + destruct (borrowBook_run userId w Hav) as (b' & c' & Hrun & Hst & _).
      rewrite Hrun. simpl.
      destruct Hst as (H1 & H2 & H3 & _ & H4 & _ & H5 & _).
      rewrite H1, H2, H3, H4, H5. simpl.
      by destruct (availableCopies (this w) - 1 =? 0).
    + by rewrite (borrowBook_unavailable _ _ Hav).
  - destruct (list_find (activeFor userId) (borrowHistory (this w)))
      as [[i r]|] eqn:Hf.
    + destruct (returnBook_run userId w i r Hf) as (b' & c' & Hrun & Hst & _).
      rewrite Hrun. simpl.
      destruct Hst as (H1 & H2 & H3 & _ & H4 & _ & H5 & _).
      rewrite H1, H2, H3, H4, H5. simpl.
      by destruct (0 <? availableCopies (this w) + 1).
    + by rewrite (returnBook_not_found _ _ Hf).
  - destruct (isAvailable (this w)) eqn:Hav.
    + destruct (borrowBook_fields userId w Hav)
        as (b' & c' & rec & Hrun & _ & _ & _ & _ & Hh & _).
      rewrite Hrun. simpl. rewrite Hh. by eexists.
    + by rewrite (borrowBook_unavailable _ _ Hav).
  - destruct (list_find (activeFor userId) (borrowHistory (this w)))
      as [[i r]|] eqn:Hf.
    + apply list_find_split in Hf as (l1 & l2 & Hl & _ & Hl1 & Hr).
      destruct (returnBook_fields userId w l1 r l2 Hl Hl1 Hr)
        as (b' & c' & Hrun & _ & _ & _ & _ & Hh).
      rewrite Hrun. simpl. rewrite Hh, Hl, !fmap_app. done.
    + by rewrite (returnBook_not_found _ _ Hf).
Qed.


End BookLifecycle.

(** * More on the annotation lifecycle *)

Module AnnotationLifecycle.
Import AnnotationModel AnnotationSpec AnnotationProps.

(** ** Likes *)

Lemma isLikedBy_true userId a :
  isLikedBy userId a = true ↔ userId ∈ like_user <$> likes a.
Proof.
  unfold isLikedBy. rewrite list_elem_of_fmap. split.
  - intros (l & Hin & He)%existsb_exists. apply String.eqb_eq in He.
    exists l. split; [done|]. by apply list_elem_of_In.
  - intros (l & -> & Hin). apply existsb_exists. exists l.
    split; [by apply list_elem_of_In|]. apply String.eqb_refl.
Qed.

Lemma isLikedBy_false userId a :
  isLikedBy userId a = false ↔ userId ∉ like_user <$> likes a.
Proof.
  rewrite <- isLikedBy_true. by destruct (isLikedBy userId a).
Qed.

Lemma other_user_differs (userId other : ObjectId) (e : Like) :
  like_user e = userId → other ≠ userId →
  String.eqb (like_user e) other = false.
Proof. intros -> Hne. apply String.eqb_neq. congruence. Qed.

(** X8: [toggleLike] changes the like of one user only: whether any
    other user is among the likers is as before. For a user who was not
    among the likers it makes them one and the count grows by one; for
    a user who was, the count shrinks by one, and they are no longer
    among the likers when they had a single entry. *)
Theorem toggleLike_membership (userId : ObjectId) (w : World Annotation) :
  let a := this w in
  let a' := this (toggleLike userId w).1 in
  (∀ other, other ≠ userId → isLikedBy other a' = isLikedBy other a) ∧
  (isLikedBy userId a = false →
   isLikedBy userId a' = true ∧ likeCount a' = S (likeCount a)) ∧
  (isLikedBy userId a = true → S (likeCount a') = likeCount a) ∧
  (likedTimes userId a = 1%nat → isLikedBy userId a' = false).
Proof.
  intros a a'. subst a a'. rewrite isLikedBy_find.
  destruct (list_find (λ l, like_user l = userId) (likes (this w)))
    as [[i e]|] eqn:Hf.
  - rewrite (toggleLike_unlike _ _ _ _ Hf). simpl.
    apply list_find_split in Hf as (l1 & l2 & Hl & Hlen & Hl1 & He).
    assert (Hdel : delete i (likes (this w)) = l1 ++ l2).
    { rewrite Hl, <- Hlen. apply delete_middle. }
    unfold isLikedBy, likeCount. simpl. rewrite Hdel, Hl.
    split; [|split; [done|split]].
    + intros other Hne. rewrite !existsb_app. simpl.
      by rewrite (other_user_differs userId other e).
    + intros _. rewrite !length_app. simpl. lia.
    + intros Hone. unfold likedTimes in Hone. rewrite Hl in Hone.
      rewrite filter_app, filter_cons, decide_True, length_app in Hone by done.
      simpl in Hone. rewrite existsb_app, !existsb_none; [done| |done].
      apply (filter_none (λ x, like_user x = userId)). lia.
  - rewrite (toggleLike_like _ _ Hf). simpl.
    unfold isLikedBy, likeCount. simpl.
    split; [|split; [|split; [done|]]].
    + intros other Hne. rewrite existsb_app. simpl.
      rewrite orb_false_r.
      assert (String.eqb userId other = false) as ->
        by (apply String.eqb_neq; congruence).
      by rewrite orb_false_r.
    + intros _. rewrite existsb_app, length_app. simpl.
      rewrite String.eqb_refl, orb_true_r. split; [done|lia].
    + intros Hone. apply list_find_None in Hf.
      unfold likedTimes in Hone.
      assert (length (filter (λ l, like_user l = userId) (likes (this w)))
              = 0%nat); [|lia].
      clear Hone. induction Hf as [|x l Hx _ IH]; [done|].
      by rewrite filter_cons, decide_False.
Qed.

(** X9: [toggleLike] keeps the likes a set: when no user has more than
    one entry among the likers before the call, none has afterwards,
    and the call flips whether the user is among the likers. *)
Theorem toggleLike_onePerUser (userId : ObjectId) (w : World Annotation) :
  onePerUser (this w) →
  let a := this w in
  let a' := this (toggleLike userId w).1 in
  onePerUser a' ∧ isLikedBy userId a' = negb (isLikedBy userId a).
Proof.
  intros Hnd a a'. subst a a'. unfold onePerUser in *.
  destruct (list_find (λ l, like_user l = userId) (likes (this w)))
    as [[i e]|] eqn:Hf.
  - rewrite (toggleLike_unlike _ _ _ _ Hf). simpl.
    assert (Hin : isLikedBy userId (this w) = true).
    { rewrite isLikedBy_find, Hf. done. }
    rewrite Hin. simpl.
    apply list_find_split in Hf as (l1 & l2 & Hl & Hlen & Hl1 & He).
    assert (Hdel : delete i (likes (this w)) = l1 ++ l2).
    { rewrite Hl, <- Hlen. apply delete_middle. }
    rewrite Hl, fmap_app in Hnd. simpl in Hnd.
    apply NoDup_app in Hnd as (Hn1 & Hdisj & Hn2).
    apply NoDup_cons in Hn2 as [Hnotin Hn2].
    split.
    + simpl. rewrite Hdel, fmap_app. apply NoDup_app.
      split; [done|]. split; [|done].
      intros x Hx Hx2. apply (Hdisj x Hx). by right.
    + apply isLikedBy_false. simpl. rewrite Hdel, fmap_app.
      intros [Hx|Hx]%elem_of_app.
      * apply (Hdisj _ Hx). rewrite He. left.
      * by rewrite He in Hnotin.
  - rewrite (toggleLike_like _ _ Hf). simpl.
    assert (Hin : isLikedBy userId (this w) = false).
    { rewrite isLikedBy_find, Hf. done. }
    rewrite Hin. simpl. split.
    + rewrite fmap_app. apply NoDup_app. split; [done|]. simpl.
      split; [|apply NoDup_singleton].
      intros x Hx ->%list_elem_of_singleton.
      by apply isLikedBy_false in Hin.
    + apply isLikedBy_true. simpl. rewrite fmap_app.
      apply elem_of_app. right. left.
Qed.

Lemma toggleLike_onePerUser_witness :
  onePerUser (this oneStored) ∧
  onePerUser (this (toggleLike "u2" oneStored).1).
Proof.
  assert (Hnd : onePerUser (this oneStored)) by apply NoDup_nil_2.
  split; [exact Hnd|].
  exact (proj1 (toggleLike_onePerUser "u2" oneStored Hnd)).
Defined.


(** ** Queries *)

Lemma date_le_total d1 d2 : date_le d1 d2 ∨ date_le d2 d1.
Proof. destruct d1, d2; simpl; lia. Qed.

Lemma date_le_trans d1 d2 d3 : date_le d1 d2 → date_le d2 d3 → date_le d1 d3.
Proof. destruct d1, d2, d3; simpl; lia. Qed.

Lemma byPageThenCreated_total : Total byPageThenCreated.
Proof.
  intros a1 a2. unfold byPageThenCreated.
  destruct (date_le_total (createdAt a1) (createdAt a2));
    destruct (Z.lt_trichotomy (page (position a1)) (page (position a2)))
      as [?|[?|?]]; auto.
Qed.

Lemma byPageThenCreated_trans : Transitive byPageThenCreated.
Proof.
  intros a1 a2 a3. unfold byPageThenCreated.
  intros [?|[? ?]] [?|[? ?]]; [left; lia..|].
  right. split; [lia|]. by eapply date_le_trans.
Qed.



(** The documents of a collection in which each sits under its own
    [_id] have different [_id]s. *)
Lemma stored_ids_NoDup (coll : gmap string Annotation) :
  keyed coll → NoDup (_id <$> (map_to_list coll).*2).
Proof.
  intros Hk.
  assert (Heq : _id <$> (map_to_list coll).*2 = (map_to_list coll).*1).
  { rewrite <- list_fmap_compose. apply list_fmap_ext.
    intros i [k a] Hi. simpl. apply Hk.
    apply elem_of_map_to_list. by eapply list_elem_of_lookup_2. }
  rewrite Heq. apply NoDup_fst_map_to_list.
Qed.

Lemma found_ids_NoDup (P : Annotation → Prop) `{∀ a, Decision (P a)}
    (R : relation Annotation) `{∀ a1 a2, Decision (R a1 a2)}
    (coll : gmap string Annotation) :
  keyed coll → NoDup (_id <$> merge_sort R (find P coll)).
Proof.
  intros Hk. rewrite merge_sort_Permutation. unfold find.
  eapply sublist_NoDup; [by apply stored_ids_NoDup|].
  apply fmap_sublist, sublist_filter.
Qed.

(** X10: [findUserAnnotations] returns exactly the stored annotations
    of that user on that book that are not deleted, private ones
    included, ordered by page and, on a page, by creation time; and
    each annotation once, the documents being stored under their own
    [_id]. *)
Theorem findUserAnnotations_result (userId bookId : ObjectId)
    (coll : gmap string Annotation) :
  let result := findUserAnnotations userId bookId coll in
  (∀ r, r ∈ result ↔
        (∃ k, coll !! k = Some r) ∧ user r = userId ∧ book r = bookId ∧
        isDeleted r = false) ∧
  StronglySorted byPageThenCreated result ∧
  (keyed coll → NoDup (_id <$> result)).
Proof.
  intros result. subst result. unfold findUserAnnotations.
  split; [|split].
  - intros r. rewrite elem_of_sorted, elem_of_find. tauto.
  - apply (@StronglySorted_merge_sort _ byPageThenCreated _
             byPageThenCreated_trans byPageThenCreated_total).
  - apply found_ids_NoDup.
Qed.

(** X11: [findByType] returns exactly the results of
    [findUserAnnotations] for the same user and book that have the
    type asked for, in the same order by page and creation time. *)
Theorem findByType_result (userId bookId : ObjectId) (ty : AnnotationType)
    (coll : gmap string Annotation) :
  (∀ r, r ∈ findByType userId bookId ty coll ↔
        r ∈ findUserAnnotations userId bookId coll ∧ type r = ty) ∧
  StronglySorted byPageThenCreated (findByType userId bookId ty coll).
Proof.
  unfold findByType, findUserAnnotations. split.
  - intros r. rewrite !elem_of_sorted, !elem_of_find. tauto.
  - apply (@StronglySorted_merge_sort _ byPageThenCreated _
             byPageThenCreated_trans byPageThenCreated_total).
Qed.

Lemma doc_of_populated {V} (f : Annotation → option V) (l : list Annotation) :
  doc <$> ((λ a, MkPopulated a (f a)) <$> l) = l.
Proof.
  rewrite <- list_fmap_compose. rewrite <- (list_fmap_id l) at 2.
  by apply list_fmap_ext.
Qed.

Section Public.
Context {UserView : Type}.
Variable userView : ObjectId → option UserView.

(** X12: [findPublicAnnotations] returns exactly the stored annotations
    on that book that are neither private nor deleted, whoever wrote
    them, each with its [user] replaced by the view of that user (or by
    nothing when the user is gone), ordered by page and creation
    time. *)
Theorem findPublicAnnotations_result (bookId : ObjectId)
    (coll : gmap string Annotation) :
  let result := findPublicAnnotations userView bookId coll in
  (∀ p, p ∈ result ↔
        (∃ k, coll !! k = Some (doc p)) ∧ book (doc p) = bookId ∧
        isPrivate (doc p) = false ∧ isDeleted (doc p) = false ∧
        p = MkPopulated (doc p) (userView (user (doc p)))) ∧
  StronglySorted byPageThenCreated (doc <$> result).
Proof.
  intros result. subst result. unfold findPublicAnnotations. split.
  - intros p. rewrite list_elem_of_fmap. split.
    + intros (a & -> & Ha). simpl.
      apply elem_of_sorted, elem_of_find in Ha. tauto.
    + intros (Hs & Hb & Hp & Hd & Heq). exists (doc p). split; [done|].
      apply elem_of_sorted, elem_of_find. tauto.
  - rewrite doc_of_populated.
    apply (@StronglySorted_merge_sort _ byPageThenCreated _
             byPageThenCreated_trans byPageThenCreated_total).
Qed.

End Public.

Section Search.
Context {BookView : Type}.
Variable bookView : ObjectId → option BookView.
Variable regexTest : string → string → bool.

End Search.


(** ** Saving *)

(** Saving a document that is in sync with the collection does
    nothing. *)
Lemma save_in_sync (w : World Annotation) :
  inSync w → save w = (w, Return (this w)).
Proof.
  unfold inSync. destruct w as [a m c]. simpl. intros Hs.
  unfold save, bind, getThis, getDb, when, putDb, modifyThis, ret; simpl.
  rewrite bool_decide_eq_false_2 by (rewrite Hs; done).
  rewrite bool_decide_eq_false_2 by (rewrite Hs; auto).
  simpl. by rewrite insert_id.
Qed.

(** Saving a stored document that has changed stamps [updatedAt], has
    the hook refresh [lastModified], and writes the document. *)
Lemma save_changed (w : World Annotation) old :
  db w !! _id (this w) = Some old → old ≠ this w →
  let c := clock w in
  let a' := set_lastModified (readings c (S (reads c)))
              (set_updatedAt (Some (readings c (reads c))) (this w)) in
  save w =
    (MkWorld a' (<[_id a' := a']> (db w)) (clock_tick (clock_tick c)),
     Return a').
Proof.
  destruct w as [a m c]. simpl. intros Hs Hne.
  unfold save, bind, getThis, getDb, when, putDb, modifyThis, now, ret; simpl.
  rewrite bool_decide_eq_false_2 by (rewrite Hs; done).
  rewrite bool_decide_eq_true_2 by (rewrite Hs; congruence).
  simpl. done.
Qed.

(** X14: on an annotation that is in sync with the collection,
    [softDelete] of one that is not deleted sets the flag, stores the
    document, and has the save hook set [lastModified] to a reading of
    the clock taken during the call; [softDelete] of one that is
    already deleted changes nothing, not even [lastModified]. Either
    way the document is in sync afterwards, so a second [softDelete]
    changes nothing. *)
Theorem softDelete_once (w : World Annotation) :
  inSync w →
  let res := softDelete w in
  let c := clock w in
  res.2 = Return (this res.1) ∧
  isDeleted (this res.1) = true ∧
  inSync res.1 ∧
  (isDeleted (this w) = true → res.1 = w) ∧
  (isDeleted (this w) = false →
   ∃ k, (reads c ≤ k < reads (clock res.1))%nat ∧
        lastModified (this res.1) = readings c k) ∧
  softDelete res.1 = (res.1, Return (this res.1)).
Proof.
  intros Hs res c. subst res c.
  assert (Hagain : ∀ w' : World Annotation,
            inSync w' → isDeleted (this w') = true →
            softDelete w' = (w', Return (this w'))).
  { intros [a m c] Hs' Hd. simpl in *.
    unfold softDelete, bind, modifyThis. simpl.
    assert (Ha : set_isDeleted true a = a).
    { destruct a. simpl in Hd. by rewrite Hd. }
    rewrite Ha. by rewrite (save_in_sync (MkWorld a m c)). }
  destruct (isDeleted (this w)) eqn:Hd.
  - rewrite (Hagain w Hs Hd). simpl.
    split; [done|]. split; [done|]. split; [done|]. split; [done|].
    split; [done|]. by apply Hagain.
  - destruct w as [a m c]. unfold inSync in Hs. simpl in *.
    set (a' := set_lastModified (readings c (S (reads c)))
                 (set_updatedAt (Some (readings c (reads c)))
                    (set_isDeleted true a))).
    assert (Hrun : softDelete (MkWorld a m c) =
              (MkWorld a' (<[_id a := a']> m) (clock_tick (clock_tick c)),
               Return a')).
    { unfold softDelete, bind, modifyThis. simpl.
      rewrite (save_changed (MkWorld (set_isDeleted true a) m c) a);
        [done|done|].
      simpl. intros Heq. apply (f_equal isDeleted) in Heq. simpl in Heq.
      congruence. }
    rewrite Hrun. simpl.
    assert (Hsync : inSync
              (MkWorld a' (<[_id a := a']> m) (clock_tick (clock_tick c)))).
    { unfold inSync. simpl. apply lookup_insert_eq. }
    split; [done|]. split; [done|]. split; [done|]. split; [done|]. split.
    + intros _. exists (S (reads c)). split; [lia|done].
    + by apply Hagain.
Qed.

Lemma softDelete_once_witness :
  inSync oneStored ∧
  softDelete (softDelete oneStored).1 =
    ((softDelete oneStored).1, Return (this (softDelete oneStored).1)).
Proof.
  assert (Hs : inSync oneStored)
    by (unfold inSync; vm_compute; reflexivity).
  split; [exact Hs|].
  exact (proj2 (proj2 (proj2 (proj2 (proj2 (softDelete_once oneStored Hs)))))).
Defined.

(** X15: on an annotation that is in sync with the collection, and for
    a text that the schema stores as given, [addReply] succeeds and
    adds exactly one reply, at the end: the replies that were there are
    unchanged, the new one carries the user, the text and the time of
    the call, and [replyCount] is one more. The likes, the flags and the
    other fields are untouched, the document is stored and in sync, no
    other stored document changes, and the save hook has set
    [lastModified] to a later reading of the clock than the reply's
    creation time. *)
Theorem addReply_effect (userId : ObjectId) (text : string)
    (w : World Annotation) :
  storedAsGiven text = true →
  inSync w →
  let res := addReply userId text w in
  let a := this w in
  let a' := this res.1 in
  let c := clock w in
  res.2 = Return a' ∧
  replies a' = replies a ++ [MkReply userId text (readings c (reads c))] ∧
  replyCount a' = S (replyCount a) ∧
  (_id a' = _id a ∧ user a' = user a ∧ book a' = book a ∧ type a' = type a ∧
   content a' = content a ∧ position a' = position a ∧ color a' = color a ∧
   isPrivate a' = isPrivate a ∧ tags a' = tags a ∧ likes a' = likes a ∧
   isDeleted a' = isDeleted a ∧ createdAt a' = createdAt a) ∧
  inSync res.1 ∧
  (∀ k, k ≠ _id a → db res.1 !! k = db w !! k) ∧
  (∃ k, (reads c < k < reads (clock res.1))%nat ∧
        lastModified a' = readings c k).
Proof.
  intros _ Hs res a a' c. subst res a a' c.
  destruct w as [a m c]. unfold inSync in Hs. simpl in *.
  set (a1 := set_replies
               (replies a ++ [MkReply userId text (readings c (reads c))]) a).
  set (a' := set_lastModified (readings c (S (S (reads c))))
               (set_updatedAt (Some (readings c (S (reads c)))) a1)).
  assert (Hrun : addReply userId text (MkWorld a m c) =
            (MkWorld a' (<[_id a := a']> m)
                     (clock_tick (clock_tick (clock_tick c))),
             Return a')).
  { change (addReply userId text (MkWorld a m c))
      with (save (MkWorld a1 m (clock_tick c))).
    rewrite (save_changed (MkWorld a1 m (clock_tick c)) a); [done|done|].
    simpl. intros Heq. apply (f_equal (λ x, length (replies x))) in Heq.
    simpl in Heq. rewrite length_app in Heq. simpl in Heq. lia. }
  rewrite Hrun. simpl. split; [done|]. split; [done|].
  split; [unfold replyCount; simpl; rewrite length_app; simpl; lia|].
  split; [done|].
  split; [unfold inSync; simpl; apply lookup_insert_eq|].
  split; [by intros k Hk; rewrite lookup_insert_ne|].
  exists (S (S (reads c))). split; [lia|done].
Qed.

Lemma addReply_effect_witness :
  storedAsGiven "Agreed." = true ∧ inSync oneStored ∧
  replyCount (this (addReply "u2" "Agreed." oneStored).1) = 1%nat.
Proof.
  assert (Hs : inSync oneStored)
    by (unfold inSync; vm_compute; reflexivity).
  split; [vm_compute; reflexivity|]. split; [exact Hs|].
  exact (proj1 (proj2 (proj2
    (addReply_effect "u2" "Agreed." oneStored eq_refl Hs)))).
Defined.

End AnnotationLifecycle.


(** * Properties of the validators *)

Module ValidatorProps.
Import Stdlib.Strings.Ascii.
Import Validators.

Lemma matches_void s : ¬ Matches Void s.
Proof. intros H. inv H. Qed.

Lemma matches_eps s : Matches Eps s ↔ s = [].
Proof. split; [intros H; by inv H|intros ->; constructor]. Qed.

Lemma matches_cat r1 r2 s : Matches (cat r1 r2) s ↔ Matches (Cat r1 r2) s.
Proof.
  destruct r1, r2; simpl; try reflexivity;
    (split; intros H; [no_void|inv H; no_void]).
Qed.

Lemma matches_alt r1 r2 s : Matches (alt r1 r2) s ↔ Matches (Alt r1 r2) s.
Proof.
  destruct r1, r2; simpl; try reflexivity;
    (split; intros H;
     [first [no_void | by apply MAltL | by apply MAltR]
     |inv H; first [no_void | done]]).
Qed.

Lemma matches_and r1 r2 s : Matches (and r1 r2) s ↔ Matches (And r1 r2) s.
Proof.
  destruct r1, r2; simpl; try reflexivity;
    (split; intros H; [no_void|inv H; no_void]).
Qed.

Lemma nullable_spec r : nullable r = true ↔ Matches r [].
Proof.
  induction r as [| |ranges| |r1 IH1 r2 IH2|r1 IH1 r2 IH2|r1 IH1 r2 IH2|r IH];
    simpl.
  - split; [done|]. intros H. inv H.
  - split; [constructor|done].
  - split; [done|]. intros H. inv H.
  - split; [done|]. intros H. inv H.
  - rewrite andb_true_iff, IH1, IH2. split.
    + intros [H1 H2]. by apply (MCat r1 r2 [] []).
    + intros H. inv H.
      match goal with Heq : _ ++ _ = [] |- _ =>
        apply app_eq_nil in Heq as [-> ->] end. done.
  - rewrite orb_true_iff, IH1, IH2. split.
    + intros [H|H]; [by apply MAltL|by apply MAltR].
    + intros H. inv H; auto.
  - rewrite andb_true_iff, IH1, IH2. split.
    + intros [H1 H2]. by constructor.
    + intros H. by inv H.
  - split; [constructor|done].
Qed.

(** A non-empty match of [r*] starts with a non-empty match of [r]. *)
Lemma star_cons r c s :
  Matches (Star r) (c :: s) →
  ∃ s1 s2, s = s1 ++ s2 ∧ Matches r (c :: s1) ∧ Matches (Star r) s2.
Proof.
  intros H. remember (Star r) as r' eqn:Hr. remember (c :: s) as s' eqn:Hs.
  revert s Hs. induction H as [| | | | | | | |r0 s1 s2 H1 _ H2 IH2];
    intros t Ht; try discriminate.
  injection Hr as ->. destruct s1 as [|c1 s1].
  - simpl in Ht. by apply IH2.
  - simpl in Ht. injection Ht as -> <-. by exists s1, s2.
Qed.

Lemma deriv_spec r c s : Matches (deriv c r) s ↔ Matches r (c :: s).
Proof.
  revert s.
  induction r as [| |ranges| |r1 IH1 r2 IH2|r1 IH1 r2 IH2|r1 IH1 r2 IH2|r IH];
    intros s; simpl.
  - split; intros H; inv H.
  - split; intros H; inv H.
  - destruct (inClass c ranges) eqn:Hc.
    + rewrite matches_eps. split; [intros ->; by constructor|].
      intros H. by inv H.
    + split; intros H; inv H. congruence.
  - rewrite matches_eps. split; [intros ->; constructor|].
    intros H. by inv H.
  - rewrite matches_alt. split.
    + intros H. inv H.
      * match goal with H : Matches (cat _ _) _ |- _ =>
          apply matches_cat in H; inv H end.
        match goal with H : Matches (deriv c r1) _ |- _ =>
          apply IH1 in H end.
        by apply (MCat r1 r2 (c :: _)).
      * destruct (nullable r1) eqn:Hn; [|no_void].
        apply nullable_spec in Hn.
        match goal with H : Matches (deriv c r2) _ |- _ =>
          apply IH2 in H end.
        by apply (MCat r1 r2 []).
    + intros H. inv H.
      match goal with Heq : ?s1 ++ ?s2 = c :: s |- _ =>
        destruct s1 as [|c1 s1]; simpl in Heq end.
      * subst. apply MAltR.
        match goal with H : Matches r1 [] |- _ =>
          apply nullable_spec in H as -> end.
        by apply IH2.
      * match goal with Heq : _ :: _ = _ :: _ |- _ =>
          injection Heq as -> <- end.
        apply MAltL, matches_cat. constructor; [by apply IH1|done].
  - rewrite matches_alt. split.
    + intros H. inv H; [apply MAltL; by apply IH1|apply MAltR; by apply IH2].
    + intros H. inv H; [apply MAltL; by apply IH1|apply MAltR; by apply IH2].
  - rewrite matches_and. split.
    + intros H. inv H. constructor; [by apply IH1|by apply IH2].
    + intros H. inv H. constructor; [by apply IH1|by apply IH2].
  - rewrite matches_cat. split.
    + intros H. inv H.
      match goal with H : Matches (deriv c r) _ |- _ => apply IH in H end.
      by apply (MStarApp r (c :: _)).
    + intros (s1 & s2 & -> & H1 & H2)%star_cons.
      constructor; [by apply IH|done].
Qed.

(** The matcher decides the language of the pattern. *)
Lemma accepts_spec r s : accepts r s = true ↔ Matches r s.
Proof.
  unfold accepts. revert r. induction s as [|c s IH]; intros r; simpl.
  - apply nullable_spec.
  - rewrite IH. apply deriv_spec.
Qed.


(** ** Reading a pattern *)

Lemma matches_Cat r1 r2 s :
  Matches (Cat r1 r2) s ↔
  ∃ s1 s2, s = s1 ++ s2 ∧ Matches r1 s1 ∧ Matches r2 s2.
Proof.
  split.
  - intros H. inv H. eauto.
  - intros (s1 & s2 & -> & H1 & H2). by constructor.
Qed.

Lemma matches_Alt r1 r2 s : Matches (Alt r1 r2) s ↔ Matches r1 s ∨ Matches r2 s.
Proof.
  split.
  - intros H. inv H; auto.
  - intros [H|H]; [by apply MAltL|by apply MAltR].
Qed.

Lemma matches_And r1 r2 s : Matches (And r1 r2) s ↔ Matches r1 s ∧ Matches r2 s.
Proof.
  split.
  - intros H. by inv H.
  - intros [H1 H2]. by constructor.
Qed.

Lemma matches_Opt r s : Matches (Opt r) s ↔ Matches r s ∨ s = [].
Proof. unfold Opt. by rewrite matches_Alt, matches_eps. Qed.

Lemma matches_Chars ranges s :
  Matches (Chars ranges) s ↔ ∃ c, s = [c] ∧ inClass c ranges = true.
Proof.
  split.
  - intros H. inv H. eauto.
  - intros (c & -> & Hc). by constructor.
Qed.

Lemma inClass_one c a : inClass c [(a, a)] = true ↔ c = a.
Proof.
  unfold inClass. simpl. rewrite orb_false_r, andb_true_iff.
  rewrite !Nat.leb_le. split.
  - intros [H1 H2].
    rewrite <- (ascii_nat_embedding c), <- (ascii_nat_embedding a).
    f_equal. lia.
  - intros ->. lia.
Qed.

Lemma inClass_app c l1 l2 :
  inClass c (l1 ++ l2) = inClass c l1 || inClass c l2.
Proof. unfold inClass. apply existsb_app. Qed.

Lemma inClass_subset c (l1 l2 : list (ascii * ascii)) :
  l1 ⊆ l2 → inClass c l1 = true → inClass c l2 = true.
Proof.
  unfold inClass. intros Hsub (range & Hin & Hr)%existsb_exists.
  apply existsb_exists. exists range. split; [|done].
  apply list_elem_of_In, Hsub, list_elem_of_In, Hin.
Qed.

Lemma matches_Lit c s : Matches (Lit c) s ↔ s = [c].
Proof.
  unfold Lit. rewrite matches_Chars. split.
  - intros (c' & -> & ->%inClass_one). done.
  - intros ->. exists c. split; [done|]. by apply inClass_one.
Qed.

Lemma matches_Str str s :
  Matches (Str str) s ↔ s = String.list_ascii_of_string str.
Proof.
  revert s. induction str as [|c str IH]; intros s; simpl.
  - apply matches_eps.
  - rewrite matches_Cat. split.
    + intros (s1 & s2 & -> & ->%matches_Lit & ->%IH). done.
    + intros ->. exists [c], (String.list_ascii_of_string str).
      split; [done|]. split; [by apply matches_Lit|by apply IH].
Qed.

Lemma matches_Rep_Chars n ranges s :
  Matches (Rep n (Chars ranges)) s ↔
  length s = n ∧ Forall (λ c, inClass c ranges = true) s.
Proof.
  revert s. induction n as [|n IH]; intros s; simpl.
  - rewrite matches_eps. split.
    + intros ->. done.
    + intros [Hl _]. by apply nil_length_inv.
  - rewrite matches_Cat. split.
    + intros (s1 & s2 & -> & (c & -> & Hc)%matches_Chars & [<- Hs2]%IH).
      split; [done|]. by constructor.
    + intros [Hl Hs]. destruct s as [|c s]; [done|].
      apply Forall_cons in Hs as [Hc Hs]. exists [c], s.
      split; [done|]. split; [by apply matches_Chars; eauto|].
      apply IH. split; [|done]. simpl in Hl. lia.
Qed.

Lemma matches_Star_Chars ranges s :
  Matches (Star (Chars ranges)) s ↔ Forall (λ c, inClass c ranges = true) s.
Proof.
  split.
  - intros H. remember (Star (Chars ranges)) as r eqn:Hr.
    induction H as [| | | | | | | |r0 s1 s2 H1 _ H2 IH2]; try discriminate.
    + constructor.
    + injection Hr as ->. apply Forall_app. split; [|by apply IH2].
      apply matches_Chars in H1 as (c & -> & Hc). by constructor.
  - induction 1 as [|c s Hc _ IH]; [constructor|].
    apply (MStarApp _ [c] s); [by constructor|done].
Qed.

Lemma matches_Plus_Chars ranges s :
  Matches (Plus (Chars ranges)) s ↔
  s ≠ [] ∧ Forall (λ c, inClass c ranges = true) s.
Proof.
  unfold Plus. rewrite matches_Cat. split.
  - intros (s1 & s2 & -> & (c & -> & Hc)%matches_Chars & Hs%matches_Star_Chars).
    split; [done|]. by constructor.
  - intros [Hne Hs]. destruct s as [|c s]; [done|].
    apply Forall_cons in Hs as [Hc Hs]. exists [c], s.
    split; [done|]. split; [by constructor|by apply matches_Star_Chars].
Qed.

(** The last character of a match of [r1 r2] is the last character of
    the match of [r2], when that one cannot be empty. *)
Lemma matches_Cat_last (P : ascii → Prop) r1 r2 s :
  (∀ s2, Matches r2 s2 → ∃ c, last s2 = Some c ∧ P c) →
  Matches (Cat r1 r2) s → ∃ c, last s = Some c ∧ P c.
Proof.
  intros Hr2 (s1 & s2 & -> & _ & H2)%matches_Cat.
  destruct (Hr2 s2 H2) as (c & Hlast & Hc). exists c. split; [|done].
  destruct s2 as [|c2 s2]; [done|]. by rewrite last_app, Hlast.
Qed.

Lemma test_spec pattern str :
  test pattern str = true ↔ Matches pattern (String.list_ascii_of_string str).
Proof. apply accepts_spec. Qed.

Lemma matchValidator_spec pattern str :
  matchValidator pattern (Some str) = true ↔
  str = EmptyString ∨ Matches pattern (String.list_ascii_of_string str).
Proof.
  destruct str as [|c str]; simpl.
  - split; [by left|done].
  - change (test pattern (String c str) = true ↔
            String c str = EmptyString ∨
            Matches pattern (String.list_ascii_of_string (String c str))).
    rewrite test_spec. split; [by right|]. by intros [?|?].
Qed.


(** ** The [isbn] pattern *)

Lemma isbnLabel_labels pre :
  Matches isbnLabel pre →
  ∃ label, label ∈ isbnLabels ∧ pre = String.list_ascii_of_string label.
Proof.
  unfold isbnLabel, isbnLabels.
  intros [H | ->]%matches_Opt; [|exists ""%string; split; [set_solver|done]].
  apply matches_Cat in H as (s1 & s2 & -> & ->%matches_Str & H).
  apply matches_Cat in H as (s3 & s4 & -> & H3 & H4).
  apply matches_Cat in H4 as (s5 & s6 & -> & H5 & ->%matches_Lit).
  assert (Hs3 : s3 = [] ∨ s3 = String.list_ascii_of_string "-10" ∨
                s3 = String.list_ascii_of_string "-13").
  { apply matches_Opt in H3 as [H3 | ->]; [|by left]. right.
    apply matches_Cat in H3 as (t1 & t2 & -> & ->%matches_Str & H3).
    apply matches_Chars in H3 as (c & -> & Hc).
    change [("0", "0"); ("3", "3")]%char
      with ([("0", "0")] ++ [("3", "3")])%char in Hc.
    rewrite inClass_app, orb_true_iff, !inClass_one in Hc.
    destruct Hc as [-> | ->]; [by left|by right]. }
  assert (Hs5 : s5 = [] ∨ s5 = [":"%char]).
  { apply matches_Opt in H5 as [->%matches_Lit | ->]; [by right|by left]. }
  destruct Hs3 as [-> | [-> | ->]], Hs5 as [-> | ->].
  - exists "ISBN "%string. split; [set_solver|done].
  - exists "ISBN: "%string. split; [set_solver|done].
  - exists "ISBN-10 "%string. split; [set_solver|done].
  - exists "ISBN-10: "%string. split; [set_solver|done].
  - exists "ISBN-13 "%string. split; [set_solver|done].
  - exists "ISBN-13: "%string. split; [set_solver|done].
Qed.

Lemma Forall_inClass (l1 l2 : list (ascii * ascii)) (s : list ascii) :
  (∀ c, inClass c l1 = true → inClass c l2 = true) →
  Forall (λ c, inClass c l1 = true) s → Forall (λ c, inClass c l2 = true) s.
Proof. intros Himp. induction 1; constructor; auto. Qed.

Lemma isbnShape_lengths body :
  Matches isbnShape body →
  (length body = 10 ∨ length body = 13 ∨ length body = 17)%nat ∧
  Forall (λ c, isIsbnChar c = true) body.
Proof.
  unfold isbnShape. intros H.
  apply matches_Alt in H as [H|H]; [|apply matches_Alt in H as [H|H];
    [|apply matches_Alt in H as [H|H]]].
  - apply matches_Rep_Chars in H as [Hl Hc]. split; [by left|].
    unfold isIsbnChar. eapply Forall_inClass; [|exact Hc].
    intros c. apply inClass_subset. sub_ranges.
  - apply matches_And in H as [_ [Hl Hc]%matches_Rep_Chars].
    split; [by right; left|done].
  - apply matches_Cat in H as (s1 & s2 & -> & ->%matches_Str & H).
    apply matches_Cat in H as (s3 & s4 & -> & (c & -> & Hc)%matches_Chars & H).
    apply matches_Rep_Chars in H as [Hl Hd].
    split; [right; left; simpl; lia|].
    repeat (apply Forall_cons; split); [done|done|..].
    + unfold isIsbnChar. clear -Hc. class_arith.
    + unfold isIsbnChar. eapply Forall_inClass; [|exact Hd].
      intros d. apply inClass_subset. sub_ranges.
  - apply matches_And in H as [_ [Hl Hc]%matches_Rep_Chars].
    split; [by right; right|].
    unfold isIsbnChar. eapply Forall_inClass; [|exact Hc].
    intros c. apply inClass_subset. sub_ranges.
Qed.

Lemma isbnGroups_last body :
  Matches isbnGroups body → ∃ c, last body = Some c ∧ isDigitOrX c = true.
Proof.
  unfold isbnGroups. intros H.
  do 7 (revert H; apply matches_Cat_last; clear body; intros body H).
  apply matches_Chars in H as (c & -> & Hc). by exists c.
Qed.

(** X17: what the [isbn] validator lets through. A value that passes is
    empty, or it is one of the labels 'ISBN ', 'ISBN: ', 'ISBN-10 ',
    'ISBN-10: ', 'ISBN-13 ', 'ISBN-13: ' or no label, followed by a body
    of exactly 10, 13 or 17 characters, all of them digits, 'X', hyphens
    or spaces, the last one a digit or 'X'. So a value that is not empty
    has at least 10 characters: a 9 digit number is rejected. *)
Theorem isbn_accepted_shape (v : string) :
  matchValidator isbnPattern (Some v) = true →
  v = EmptyString ∨
  ∃ label body,
    label ∈ isbnLabels ∧
    String.list_ascii_of_string v =
      String.list_ascii_of_string label ++ body ∧
    (length body = 10 ∨ length body = 13 ∨ length body = 17)%nat ∧
    Forall (λ c, isIsbnChar c = true) body ∧
    (∃ c, last body = Some c ∧ isDigitOrX c = true) ∧
    (10 ≤ length (String.list_ascii_of_string v))%nat.
Proof.
  intros [-> | H]%matchValidator_spec; [by left|]. right.
  unfold isbnPattern in H.
  apply matches_Cat in H as (pre & body & Hv & Hpre & Hbody).
  apply matches_And in Hbody as [Hshape Hgroups].
  apply isbnLabel_labels in Hpre as (label & Hlabel & ->).
  apply isbnShape_lengths in Hshape as [Hlen Hchars].
  apply isbnGroups_last in Hgroups.
  exists label, body. repeat (split; [done|]).
  rewrite Hv, length_app. lia.
Qed.

Lemma isbn_accepted_shape_witness :
  matchValidator isbnPattern (Some "978-0-306-40615-7"%string) = true ∧
  (10 ≤ length (String.list_ascii_of_string "978-0-306-40615-7"))%nat.
Proof.
  assert (Hok : matchValidator isbnPattern
                  (Some "978-0-306-40615-7"%string) = true)
    by (vm_compute; reflexivity).
  split; [exact Hok|].
  destruct (isbn_accepted_shape _ Hok) as [Hempty|(l & b & _ & _ & _ & _ & _ & H)].
  - discriminate Hempty.
  - exact H.
Defined.


(** A body without separators: one digit, two runs of digits, and the
    last character. *)
Lemma isbnGroups_plain d1 run1 run2 c :
  isDigit d1 = true →
  run1 ≠ [] → Forall (λ d, isDigit d = true) run1 →
  run2 ≠ [] → Forall (λ d, isDigit d = true) run2 →
  isDigitOrX c = true →
  Matches
    (Cat (Cat digit (Rep 4 (Opt digit)))
      (Cat (Opt separator)
        (Cat (Plus digit)
          (Cat (Opt separator)
            (Cat (Plus digit)
              (Cat (Opt separator)
                (Chars [("0", "9"); ("X", "X")]%char)))))))
    (d1 :: run1 ++ run2 ++ [c]).
Proof.
  intros Hd1 Hne1 Hrun1 Hne2 Hrun2 Hc.
  apply (MCat _ _ [d1] (run1 ++ run2 ++ [c])).
  { apply (MCat _ _ [d1] []); [by constructor|].
    apply accepts_spec. vm_compute. reflexivity. }
  apply (MCat _ _ [] (run1 ++ run2 ++ [c])); [apply MAltR; constructor|].
  apply (MCat _ _ run1 (run2 ++ [c])); [by apply matches_Plus_Chars|].
  apply (MCat _ _ [] (run2 ++ [c])); [apply MAltR; constructor|].
  apply (MCat _ _ run2 [c]); [by apply matches_Plus_Chars|].
  apply (MCat _ _ [] [c]); [apply MAltR; constructor|].
  by constructor.
Qed.

Lemma digit_is_digitOrX c : isDigit c = true → isDigitOrX c = true.
Proof. apply inClass_subset. sub_ranges. Qed.

(** X18: the [isbn] validator does not verify the check digit: any
    nine digits followed by a digit or 'X' pass, and so do '978' or
    '979' followed by any ten digits. *)
Theorem isbn_no_check_digit (ds : list ascii) (c : ascii) :
  Forall (λ d, isDigit d = true) ds →
  isDigitOrX c = true →
  (length ds = 9%nat →
   matchValidator isbnPattern
     (Some (String.string_of_list_ascii (ds ++ [c]))) = true) ∧
  (length ds = 10%nat →
   ∀ p, inClass p [("8", "9")]%char = true →
        matchValidator isbnPattern
          (Some (String.string_of_list_ascii
                   ("9" :: "7" :: p :: ds)%char)) = true).
Proof.
  intros Hds Hc. split.
  - intros Hlen. apply matchValidator_spec. right.
    rewrite String.list_ascii_of_string_of_list_ascii.
    apply (MCat _ _ [] (ds ++ [c])); [apply MAltR; constructor|].
    constructor.
    + apply MAltL, matches_Rep_Chars. split; [rewrite length_app; simpl; lia|].
      apply Forall_app. split; [|by constructor].
      eapply Forall_inClass; [|exact Hds]. apply digit_is_digitOrX.
    + apply (MCat _ _ [] (ds ++ [c])); [apply MAltR; constructor|].
      do 9 (destruct ds as [|? ds]; [done|]). destruct ds; [|done].
      repeat match goal with H : Forall _ (_ :: _) |- _ =>
        apply Forall_cons in H as [? H] end.
      match goal with |- Matches _ ((?d1 :: ?d2 :: ?d3 :: ?d4 :: ?d5 :: ?d6
                                       :: ?d7 :: ?d8 :: ?d9 :: []) ++ _) =>
        change (Matches
          (Cat (Cat digit (Rep 4 (Opt digit)))
            (Cat (Opt separator)
              (Cat (Plus digit)
                (Cat (Opt separator)
                  (Cat (Plus digit)
                    (Cat (Opt separator)
                      (Chars [("0", "9"); ("X", "X")]%char)))))))
          (d1 :: [d2; d3; d4; d5; d6; d7; d8] ++ [d9] ++ [c])) end.
      apply isbnGroups_plain; try done; by repeat constructor.
  - intros Hlen p Hp. apply matchValidator_spec. right.
    rewrite String.list_ascii_of_string_of_list_ascii.
    apply (MCat _ _ [] ("9" :: "7" :: p :: ds)%char);
      [apply MAltR; constructor|].
    constructor.
    + apply MAltR, MAltR, MAltL.
      apply (MCat _ _ ["9"; "7"]%char (p :: ds)); [by apply matches_Str|].
      apply (MCat _ _ [p] ds); [by constructor|].
      by apply matches_Rep_Chars.
    + apply (MCat _ _ ["9"; "7"; p]%char ds).
      { apply MAltL.
        apply (MCat _ _ ["9"; "7"]%char [p]); [by apply matches_Str|].
        apply (MCat _ _ [p] []); [by constructor|apply MAltR; constructor]. }
      do 10 (destruct ds as [|? ds]; [done|]). destruct ds; [|done].
      repeat match goal with H : Forall _ (_ :: _) |- _ =>
        apply Forall_cons in H as [? H] end.
      match goal with |- Matches _ (?d1 :: ?d2 :: ?d3 :: ?d4 :: ?d5 :: ?d6
                                      :: ?d7 :: ?d8 :: ?d9 :: ?d10 :: []) =>
        change (Matches
          (Cat (Cat digit (Rep 4 (Opt digit)))
            (Cat (Opt separator)
              (Cat (Plus digit)
                (Cat (Opt separator)
                  (Cat (Plus digit)
                    (Cat (Opt separator)
                      (Chars [("0", "9"); ("X", "X")]%char)))))))
          (d1 :: [d2; d3; d4; d5; d6; d7; d8] ++ [d9] ++ [d10])) end.
      apply isbnGroups_plain; try done; try by repeat constructor.
      by apply digit_is_digitOrX.
Qed.

Lemma isbn_no_check_digit_witness :
  matchValidator isbnPattern (Some "000000000X"%string) = true.
Proof.
  refine (proj1 (isbn_no_check_digit
    (String.list_ascii_of_string "000000000") "X"%char _ _) _).
  - vm_compute. repeat constructor.
  - reflexivity.
  - reflexivity.
Defined.

(** ** The [color] pattern *)

(** X19: the [color] validator lets through the empty value and
    exactly the values made of '#' followed by three or by six
    hexadecimal digits, in either case of the letters. *)
Theorem color_accepted_iff (v : string) :
  matchValidator colorPattern (Some v) = true ↔
  v = EmptyString ∨
  ∃ hex, String.list_ascii_of_string v = "#"%char :: hex ∧
         (length hex = 3 ∨ length hex = 6)%nat ∧
         Forall (λ c, isHexDigit c = true) hex.
Proof.
  rewrite matchValidator_spec. unfold colorPattern.
  rewrite matches_Cat. setoid_rewrite matches_Lit.
  setoid_rewrite matches_Alt. setoid_rewrite matches_Rep_Chars.
  split.
  - intros [->|(s1 & hex & Hv & -> & H)]; [by left|]. right.
    exists hex. split; [done|]. unfold isHexDigit. tauto.
  - intros [->|(hex & Hv & Hlen & Hhex)]; [by left|]. right.
    exists ["#"%char], hex. split; [done|]. split; [done|].
    unfold isHexDigit in Hhex. tauto.
Qed.

End ValidatorProps.
